(** * pynput: keyboard controller, hot keys and mouse bounds

    A shallow embedding of
    - [lib/pynput/keyboard/_base.py]   ([KeyCode], [Key], [Controller]),
    - [lib/pynput/keyboard/__init__.py] ([HotKey], [GlobalHotKeys]),
    - [lib/pynput/mouse/_xorg.py]       ([Button], [Controller], [Listener]).

    Python text is a list of code points, Python sets are [gset]s, the
    dictionary [_NORMAL_MODIFIERS] is a [gmap].  Code that raises returns a
    [result]; the controller, which mutates its own fields and calls the
    platform's [_handle], runs in a state-and-exception monad whose state
    survives a raised exception, as a Python object does.  Key codes are
    compared as Python compares them, by the identity of the object (see
    [KeyCode]), and an [except] clause catches the subclasses of its class
    (see [issubclass]). *)

From Stdlib Require Import ZArith NArith List String Ascii Bool Lia.
From stdpp Require Import base decidable countable finite gmap list option strings.

Local Open Scope Z_scope.
Local Open Scope list_scope.

(** ** Text *)

(** A [str] is a sequence of Unicode code points. *)
Abbreviation text := (list N).

(** An ASCII literal as text. *)
Definition txt (s : string) : text := N_of_ascii <$> list_ascii_of_string s.

(** ** The named keys *)

(** [class Key(enum.Enum)].  The members' values are placeholders in
    [_base.py]; the platform supplies them (see [Backend] below). *)
Inductive Key :=
  | alt | alt_l | alt_r | alt_gr | backspace | caps_lock
  | cmd | cmd_l | cmd_r | ctrl | ctrl_l | ctrl_r
  | delete | down | end_ | enter | esc
  | f1 | f2 | f3 | f4 | f5 | f6 | f7 | f8 | f9 | f10
  | f11 | f12 | f13 | f14 | f15 | f16 | f17 | f18 | f19 | f20
  | home | left | page_down | page_up | right
  | shift | shift_l | shift_r | space | tab | up
  | insert | menu | num_lock | pause | print_screen | scroll_lock.

Definition Key_members : list Key :=
  [ alt; alt_l; alt_r; alt_gr; backspace; caps_lock;
    cmd; cmd_l; cmd_r; ctrl; ctrl_l; ctrl_r;
    delete; down; end_; enter; esc;
    f1; f2; f3; f4; f5; f6; f7; f8; f9; f10;
    f11; f12; f13; f14; f15; f16; f17; f18; f19; f20;
    home; left; page_down; page_up; right;
    shift; shift_l; shift_r; space; tab; up;
    insert; menu; num_lock; pause; print_screen; scroll_lock ].

Definition Key_name (k : Key) : string :=
  match k with
  | alt => "alt" | alt_l => "alt_l" | alt_r => "alt_r" | alt_gr => "alt_gr"
  | backspace => "backspace" | caps_lock => "caps_lock"
  | cmd => "cmd" | cmd_l => "cmd_l" | cmd_r => "cmd_r"
  | ctrl => "ctrl" | ctrl_l => "ctrl_l" | ctrl_r => "ctrl_r"
  | delete => "delete" | down => "down" | end_ => "end" | enter => "enter"
  | esc => "esc"
  | f1 => "f1" | f2 => "f2" | f3 => "f3" | f4 => "f4" | f5 => "f5"
  | f6 => "f6" | f7 => "f7" | f8 => "f8" | f9 => "f9" | f10 => "f10"
  | f11 => "f11" | f12 => "f12" | f13 => "f13" | f14 => "f14" | f15 => "f15"
  | f16 => "f16" | f17 => "f17" | f18 => "f18" | f19 => "f19" | f20 => "f20"
  | home => "home" | left => "left" | page_down => "page_down"
  | page_up => "page_up" | right => "right"
  | shift => "shift" | shift_l => "shift_l" | shift_r => "shift_r"
  | space => "space" | tab => "tab" | up => "up"
  | insert => "insert" | menu => "menu" | num_lock => "num_lock"
  | pause => "pause" | print_screen => "print_screen"
  | scroll_lock => "scroll_lock"
  end.

#[global] Instance Key_eq_dec : EqDecision Key.
Proof. solve_decision. Defined.

#[global, refine] Instance Key_finite : Finite Key := {| enum := Key_members |}.
Proof.
  - apply (bool_decide_unpack _). vm_compute. exact I.
  - intros k. apply list_elem_of_In. destruct k; vm_compute; tauto.
Defined.

(** [Key[name]]: the member of that name; [None] stands for [KeyError]. *)
Definition Key_getitem (name : text) : option Key :=
  find (fun k => bool_decide (txt (Key_name k) = name)) Key_members.

(** ** Key codes *)

(** The fields a [KeyCode] carries after [__init__], and which object it
    is.  [None] is Python's [None]; [combining] is a function of [char] and
    [is_dead].

    [class KeyCode] defines neither [__eq__] nor [__hash__]: [==], [in],
    sets and dictionaries take two key codes for the same only when they
    are the same object, whatever their fields.  The key codes the code
    compares others with are the values of the members of [Key], each
    made once, by the platform: [value_of = Some k] marks the object that
    is the value of the member [k], and a key code made by any other call
    of the class has [value_of = None].  Equality of the record is
    therefore the identity of the object wherever one side is the value
    of a member, and that is every comparison of key codes the controller
    makes.  Two key codes that are both made by other calls the record
    does not tell apart: [HotKey.parse], which compares such objects,
    names each by the call that made it, and the state of a hot key is
    modelled for keys of any type, however they compare. *)
Record KeyCode := mkKeyCode {
  vk : option Z;
  char : option text;
  is_dead : bool;
  combining : option text;
  value_of : option Key
}.

#[global] Instance KeyCode_eq_dec : EqDecision KeyCode.
Proof. solve_decision. Defined.

#[global] Instance KeyCode_countable : Countable KeyCode.
Proof.
  apply (inj_countable'
    (fun k => (vk k, char k, is_dead k, combining k, value_of k))
    (fun t => let '(v, c, d, m, o) := t in mkKeyCode v c d m o)).
  by intros [].
Defined.

(** ** Python values and exceptions *)

(** The values that reach the functions modelled here, as arguments or as
    the arguments of an exception. *)
Inductive pyval :=
  | VNone
  | VInt (z : Z)
  | VStr (s : text)
  | VKey (k : Key)
  | VKeyCode (k : KeyCode)
  | VTuple (zs : list Z).

(** Exception classes: the built-in ones the code raises or catches, the
    two the keyboard controller declares, any other class that derives
    from none of these, by name, and a class declared as deriving from
    another one ([UnicodeError] from [ValueError], for one). *)
Inductive exn_class :=
  | ValueError | KeyError | TypeError | AttributeError | AssertionError
  | NotImplementedError
  | InvalidKeyException | InvalidCharacterException
  | OtherError (name : string)
  | Subclass (base : exn_class) (name : string).

#[global] Instance exn_class_eq_dec : EqDecision exn_class.
Proof. solve_decision. Defined.

(** [issubclass(cls, base)]: a class is a subclass of itself and of what
    its base is a subclass of.  It is what [except base:] tests of the
    class of a raised exception. *)
Fixpoint issubclass (cls base : exn_class) : bool :=
  bool_decide (cls = base)
  || match cls with
     | Subclass parent _ => issubclass parent base
     | _ => false
     end.

Record exn := Exn { exn_cls : exn_class; exn_args : list pyval }.

Inductive result (A : Type) :=
  | Ok (a : A)
  | Err (e : exn).
Arguments Ok {A} a.
Arguments Err {A} e.

Definition is_Ok {A} (r : result A) : bool :=
  match r with Ok _ => true | Err _ => false end.

(** [r] is an exception of class [cls]. *)
Definition raises {A} (r : result A) (cls : exn_class) : Prop :=
  match r with Ok _ => False | Err e => exn_cls e = cls end.

#[global] Instance result_ret : MRet result := fun _ a => Ok a.
#[global] Instance result_bind : MBind result := fun _ _ f r =>
  match r with Ok a => f a | Err e => Err e end.
#[global] Instance result_throw : MThrow exn result := fun _ e => Err e.

(** ** The standard library functions the code calls *)

(** [str.upper], [str.lower], [int] of a [str] ([None] stands for its
    [ValueError]), and the three functions of [unicodedata]. *)
Class StdLib := {
  str_upper : text -> text;
  str_lower : text -> text;
  int_of_str : text -> option Z;
  unicodedata_name : text -> result text;
  unicodedata_lookup : text -> result text;
  unicodedata_normalize_NFC : text -> text
}.

(** ** [class KeyCode] *)

Section KeyCodes.
Context `{StdLib}.

(** [KeyCode.__init__(self, vk=0, char=None, is_dead=False)]; the name of
    [None] is a [TypeError]. *)
Definition KeyCode_init (vk : option Z) (char : option text) (is_dead : bool)
  : result KeyCode :=
  if is_dead then
    match char with
    | None => Err (Exn TypeError [])
    | Some c =>
        name ← unicodedata_name c;
        combining ← unicodedata_lookup (txt "COMBINING " ++ name);
        if bool_decide (combining = []) then Err (Exn KeyError [VStr c])
        else Ok (mkKeyCode vk char true (Some combining) None)
    end
  else Ok (mkKeyCode vk char false None None).

(** [from_vk] and [from_char] build a key that is not dead, which
    [__init__] never refuses. *)
Definition from_vk (vk : Z) : KeyCode := mkKeyCode (Some vk) None false None None.

Definition from_char (char : option text) : KeyCode :=
  mkKeyCode (Some 0) char false None None.

Definition from_dead (char : text) : result KeyCode :=
  KeyCode_init (Some 0) (Some char) true.

(** [KeyCode.join(self, key)] *)
Definition join (self key : KeyCode) : result KeyCode :=
  if bool_decide (char key = Some (txt " "))
     || (is_dead key && bool_decide (char key = char self))
  then Ok (from_char (char self))
  else
    match char key with
    | Some c =>
        match combining self with
        | None => Err (Exn TypeError [])
        | Some mark =>
            let combined := unicodedata_normalize_NFC (c ++ mark) in
            if bool_decide (combined = []) then Err (Exn ValueError [VKeyCode key])
            else Ok (from_char (Some combined))
        end
    | None => Err (Exn ValueError [VKeyCode key])
    end.

(** What [__init__] guarantees of a key code. *)
Definition KeyCode_valid (k : KeyCode) : Prop :=
  if is_dead k
  then (exists c mark, char k = Some c /\ combining k = Some mark /\ mark <> [])
  else combining k = None.
End KeyCodes.

(** ** The platform *)

(** What a platform module supplies: the key code its class body makes
    for every member of [Key] ([None] where the member's value is
    [None]), and the method [_handle], which acts on the platform's own
    state and may raise. *)
Class Backend := {
  Key_code : Key -> option KeyCode;
  platform_state : Type;
  platform_handle : KeyCode -> bool -> platform_state -> result unit * platform_state
}.

(** The key code [code] as the object that is the value of the member
    [k]. *)
Definition as_value_of (k : Key) (code : KeyCode) : KeyCode :=
  mkKeyCode (vk code) (char code) (is_dead code) (combining code) (Some k).

(** [k.value]: the object made for the member [k], and for no other. *)
Definition Key_value `{Backend} (k : Key) : option KeyCode :=
  as_value_of k <$> Key_code k.

(** [_MODIFIER_KEYS]: each base modifier with the values that stand for it. *)
Definition _MODIFIER_KEYS `{Backend} : list (Key * list (option KeyCode)) :=
  [ (alt_gr, [Key_value alt_gr]);
    (alt,    [Key_value alt;   Key_value alt_l;   Key_value alt_r]);
    (cmd,    [Key_value cmd;   Key_value cmd_l;   Key_value cmd_r]);
    (ctrl,   [Key_value ctrl;  Key_value ctrl_l;  Key_value ctrl_r]);
    (shift,  [Key_value shift; Key_value shift_l; Key_value shift_r]) ].

(** ** [class Controller] *)

Module Controller.
Section Controller.
Context `{StdLib} `{Backend}.

(** The controller's fields, the platform's state and, as a ghost field,
    the calls of [_handle] made so far, oldest first. *)
Record State := mkState {
  _modifiers : gset Key;
  _caps_lock : bool;
  _dead_key : option KeyCode;
  platform : platform_state;
  handled : list (KeyCode * bool)
}.

(** [Controller.__init__] *)
Definition init (p : platform_state) : State := mkState ∅ false None p [].

(** A method: it returns or raises, and leaves a state either way. *)
Definition M (A : Type) : Type := State -> result A * State.

#[global] Instance M_ret : MRet M := fun _ a s => (Ok a, s).
#[global] Instance M_bind : MBind M := fun _ _ f m s =>
  match m s with
  | (Ok a, s') => f a s'
  | (Err e, s') => (Err e, s')
  end.
#[global] Instance M_throw : MThrow exn M := fun _ e s => (Err e, s).

Definition lift {A} (r : result A) : M A := fun s => (r, s).
Definition get : M State := fun s => (Ok s, s).
Definition put (s : State) : M unit := fun _ => (Ok tt, s).

(** [try: m  except cls: handler] *)
Definition try_except {A} (m : M A) (cls : exn_class) (handler : exn -> M A) : M A :=
  fun s =>
    match m s with
    | (Err e, s') => if issubclass (exn_cls e) cls then handler e s' else (Err e, s')
    | r => r
    end.

(** [try: m  finally: final] *)
Definition try_finally {A} (m : M A) (final : M unit) : M A :=
  fun s =>
    let '(r, s') := m s in
    match final s' with
    | (Ok _, s'') => (r, s'')
    | (Err e, s'') => (Err e, s'')
    end.

(** [for x in xs: body(x)] *)
Fixpoint for_each {A} (xs : list A) (body : A -> M unit) : M unit :=
  match xs with
  | [] => mret tt
  | x :: xs' => body x ;; for_each xs' body
  end.

Definition with_modifiers (m : gset Key) (s : State) : State :=
  mkState m (_caps_lock s) (_dead_key s) (platform s) (handled s).
Definition with_caps_lock (b : bool) (s : State) : State :=
  mkState (_modifiers s) b (_dead_key s) (platform s) (handled s).
Definition with_dead_key (k : option KeyCode) (s : State) : State :=
  mkState (_modifiers s) (_caps_lock s) k (platform s) (handled s).
Definition with_call (key : KeyCode) (is_press : bool) (p : platform_state)
    (s : State) : State :=
  mkState (_modifiers s) (_caps_lock s) (_dead_key s) p
          (handled s ++ [(key, is_press)]).

Definition set_modifiers (m : gset Key) : M unit := fun s => (Ok tt, with_modifiers m s).
Definition set_caps_lock (b : bool) : M unit := fun s => (Ok tt, with_caps_lock b s).
Definition set_dead_key (k : option KeyCode) : M unit := fun s => (Ok tt, with_dead_key k s).

(** [set.remove] raises [KeyError] on an absent element. *)
Definition set_remove (x : Key) (m : gset Key) : result (gset Key) :=
  if bool_decide (x ∈ m) then Ok (m ∖ {[x]}) else Err (Exn KeyError [VKey x]).

(** [_handle]: the platform's implementation, each call recorded. *)
Definition _handle (key : KeyCode) (is_press : bool) : M unit := fun s =>
  let '(r, p) := platform_handle key is_press (platform s) in
  (r, with_call key is_press p s).

(** [shift_pressed] *)
Definition shift_pressed (s : State) : bool :=
  if _caps_lock s then true else bool_decide (shift ∈ _modifiers s).

(** [alt_pressed], [alt_gr_pressed], [ctrl_pressed] *)
Definition alt_pressed (s : State) : bool := bool_decide (alt ∈ _modifiers s).
Definition alt_gr_pressed (s : State) : bool := bool_decide (alt_gr ∈ _modifiers s).
Definition ctrl_pressed (s : State) : bool := bool_decide (ctrl ∈ _modifiers s).

(** [_as_modifier]; [key in modifiers] finds [key] when it is one of the
    objects in the tuple. *)
Definition _as_modifier (key : option KeyCode) : option Key :=
  fst <$> find (fun bm => bool_decide (key ∈ snd bm)) _MODIFIER_KEYS.

(** Reading an attribute of [key]: [None] has none. *)
Definition attr_of (key : option KeyCode) (name : string) : result KeyCode :=
  match key with
  | Some k => Ok k
  | None => Err (Exn AttributeError [VStr (txt name)])
  end.

(** [_resolve].  [key in self._Key] holds of the members of [Key] and of
    nothing else; a key that is none of the three kinds falls off the end
    of the function, which then returns [None]. *)
Definition _resolve (key : pyval) : M (option KeyCode) :=
  match key with
  | VKey k => mret (Key_value k)
  | VStr s =>
      if bool_decide (length s ≠ 1%nat) then mthrow (Exn ValueError [VStr s])
      else mret (Some (from_char (Some s)))
  | VKeyCode k =>
      s ← get;
      match char k with
      | Some c => if shift_pressed s then mret (Some (from_char (Some (str_upper c))))
                  else mret (Some k)
      | None => mret (Some k)
      end
  | _ => mret None
  end.

(** [_dispatch], first block: "Check whether the key is a modifier". *)
Definition update_modifiers (key : option KeyCode) (is_press : bool) : M unit :=
  match _as_modifier key with
  | Some modifier =>
      s ← get;
      if is_press then set_modifiers ({[modifier]} ∪ _modifiers s)
      else try_except
             (m ← lift (set_remove modifier (_modifiers s)); set_modifiers m)
             KeyError (fun _ => mret tt)
  | None => mret tt
  end.

(** [_dispatch], on a press: "Update caps lock state"; [==] holds of the
    value of [caps_lock] itself and of no other key code. *)
Definition update_caps_lock (key : option KeyCode) : M unit :=
  if bool_decide (key = Key_value caps_lock)
  then s ← get; set_caps_lock (negb (_caps_lock s))
  else mret tt.

(** [_dispatch], on a press: "If we currently have a dead key pressed,
    join it with this key".  It returns the key to go on with. *)
Definition join_dead_key (key : option KeyCode) : M (option KeyCode) :=
  s ← get;
  match _dead_key s with
  | Some dead =>
      key' ← try_except
               (k ← lift (attr_of key "char");
                joined ← lift (join dead k);
                mret (Some joined))
               ValueError
               (fun _ => _handle dead true ;; _handle dead false ;; mret key);
      set_dead_key None ;;
      mret key'
  | None => mret key
  end.

(** [_dispatch] *)
Definition _dispatch (key : option KeyCode) (is_press : bool) : M unit :=
  update_modifiers key is_press ;;
  if is_press then
    update_caps_lock key ;;
    key ← join_dead_key key;
    k ← lift (attr_of key "is_dead");
    if is_dead k then set_dead_key (Some k)
    else _handle k true
  else
    k ← lift (attr_of key "is_dead");
    if is_dead k then mret tt
    else _handle k false.

Definition press (key : pyval) : M unit :=
  k ← _resolve key; _dispatch k true.

Definition release (key : pyval) : M unit :=
  k ← _resolve key; _dispatch k false.

Definition touch (key : pyval) (is_press : bool) : M unit :=
  if is_press then press key else release key.

(** [pressed], a context manager over the keys [args] around [block]. *)
Definition pressed {A} (args : list pyval) (block : M A) : M A :=
  for_each args press ;;
  try_finally block (for_each (rev args) press).

(** The loop of [type]; [i] is the index [enumerate] has reached. *)
Fixpoint type_from (i : nat) (string : list text) : M unit :=
  match string with
  | [] => mret tt
  | character :: rest =>
      try_except
        (press (VStr character) ;; release (VStr character))
        ValueError
        (fun _ => mthrow (Exn InvalidCharacterException
                            [VInt (Z.of_nat i); VStr character])) ;;
      type_from (S i) rest
  end.

(** Iterating a [str] yields its characters, each a [str] of length one. *)
Definition characters (string : text) : list text := (fun c => [c]) <$> string.

Definition type (string : text) : M unit := type_from 0 (characters string).

(** A caller's calls of [press] ([true]) and [release] ([false]), one after
    the other, whether or not one of them raises: the state they leave. *)
Definition touches (calls : list (pyval * bool)) (s : State) : State :=
  foldl (fun s call => (touch call.1 call.2 s).2) s calls.
End Controller.
End Controller.

(** ** [class HotKey] *)

Module HotKey.

(** *** The hot key's state, for any hashable key type

    The callback [on_activate] acts on the caller's environment [E]. *)
Section State.
Context `{Countable K} {E : Type}.

Record t := mk {
  _state : gset K;
  _keys : gset K;
  _on_activate : E -> E
}.

(** [HotKey.__init__] *)
Definition init (keys : list K) (on_activate : E -> E) : t :=
  mk ∅ (list_to_set keys) on_activate.

(** [HotKey.press] *)
Definition press (key : K) (self : t) (env : E) : t * E :=
  if bool_decide (key ∈ _keys self) && negb (bool_decide (key ∈ _state self)) then
    let self' := mk ({[key]} ∪ _state self) (_keys self) (_on_activate self) in
    if bool_decide (_state self' = _keys self')
    then (self', _on_activate self' env)
    else (self', env)
  else (self, env).

(** [HotKey.release] *)
Definition release (key : K) (self : t) : t :=
  if bool_decide (key ∈ _state self)
  then mk (_state self ∖ {[key]}) (_keys self) (_on_activate self)
  else self.

(** The calls a listener makes on a hot key, and their effect in turn. *)
Inductive event := Press (key : K) | Release (key : K).

Definition step (st : t * E) (ev : event) : t * E :=
  match ev with
  | Press key => press key st.1 st.2
  | Release key => (release key st.1, st.2)
  end.

Definition run (evs : list event) (st : t * E) : t * E := foldl step st evs.

(** [press key] on [self] reaches the call of [on_activate]. *)
Definition activates (key : K) (self : t) : bool :=
  bool_decide (key ∈ _keys self) && negb (bool_decide (key ∈ _state self))
  && bool_decide ({[key]} ∪ _state self = _keys self).
End State.
Arguments t K {_ _} E.
Arguments event K : clear implicits.

(** *** [HotKey.parse] *)
Section Parse.
Context `{StdLib} `{Backend}.

(** A parsed part is a [Key] or a [KeyCode]. *)
Definition part : Type := Key + KeyCode.

(** [_NORMAL_MODIFIERS]: a later entry replaces an earlier one under the
    same key. *)
Definition _NORMAL_MODIFIERS : gmap (option KeyCode) Key :=
  foldl (fun d combination =>
           foldl (fun d value => <[value := combination.1]> d) d combination.2)
        ∅ _MODIFIER_KEYS.

Definition dict_values (d : gmap (option KeyCode) Key) : list Key :=
  (map_to_list d).*2.

Definition plus_sign : N := 43.
Definition less_than_sign : N := 60.
Definition greater_than_sign : N := 62.

(** [keys[start:i]] for [start <= i <= len(keys)] *)
Definition slice (keys : text) (start i : nat) : text :=
  take (i - start) (drop start keys).

(** The loop of the generator [parts]: the segments it yields while
    [rest] is read from index [i] on, and [start] when the loop ends. *)
Fixpoint parts_loop (keys : text) (i start : nat) (rest : text) : list text * nat :=
  match rest with
  | [] => ([], start)
  | c :: rest' =>
      if bool_decide (c = plus_sign) && negb (bool_decide (i = start)) then
        let '(yielded, start') := parts_loop keys (S i) (S i) rest' in
        (slice keys start i :: yielded, start')
      else parts_loop keys (S i) start rest'
  end.

(** [list(parts())] *)
Definition parts (keys : text) : result (list text) :=
  let '(yielded, start) := parts_loop keys 0 0 keys in
  if bool_decide (start = length keys) then Err (Exn ValueError [VStr keys])
  else Ok (yielded ++ [drop start keys]).

(** The inner function [parse(s)].  [Key[name]] is looked up among the
    members every platform has. *)
Definition parse_part (s : text) : result part :=
  if bool_decide (length s = 1%nat) then
    Ok (inr (from_char (Some (str_lower s))))
  else if bool_decide (2 < length s)%nat
          && bool_decide (head s = Some less_than_sign)
          && bool_decide (last s = Some greater_than_sign) then
    let p := take (length s - 2) (drop 1 s) in
    match Key_getitem (str_lower p) with
    | Some key =>
        if bool_decide (key ∈ dict_values _NORMAL_MODIFIERS) then Ok (inl key)
        else
          match Key_value key with
          | None => Err (Exn AssertionError [VStr (txt "Key has no value")])
          | Some value =>
              match vk value with
              | None => Err (Exn AssertionError [VStr (txt "KeyCode has no vk")])
              | Some code => Ok (inr (from_vk code))
              end
          end
    | None =>
        match int_of_str p with
        | Some code => Ok (inr (from_vk code))
        | None => Err (Exn ValueError [VStr s])
        end
    end
  else Err (Exn ValueError [VStr s]).

(** The objects in [parsed_parts], from the place [i] on, as
    [set(parsed_parts)] hashes and compares them: a [Key] as the member
    it is; a [KeyCode] by identity, and every key code in the list is the
    new object that the call of [parse(s)] at its place has made, named
    here by that place. *)
Fixpoint objects (i : nat) (parsed_parts : list part) : list (Key + nat) :=
  match parsed_parts with
  | [] => []
  | inl key :: rest => inl key :: objects (S i) rest
  | inr _ :: rest => inr i :: objects (S i) rest
  end.

(** [HotKey.parse] *)
Definition parse (keys : text) : result (list part) :=
  raw_parts ← parts keys;
  parsed_parts ← mapM parse_part raw_parts;
  if bool_decide (length parsed_parts
                  ≠ size (list_to_set (C := gset (Key + nat)) (objects 0 parsed_parts)))
  then Err (Exn ValueError [VStr keys])
  else Ok parsed_parts.


(** The segments the generator has cut when it ends, the last one
    included even when it is empty. *)
Definition segments (keys : text) : list text :=
  let '(yielded, start) := parts_loop keys 0 0 keys in
  yielded ++ [drop start keys].
End Parse.


(** ['+'.join(parts)] *)
Fixpoint join_plus (parts : list text) : text :=
  match parts with
  | [] => []
  | [seg] => seg
  | seg :: rest => seg ++ plus_sign :: join_plus rest
  end.
End HotKey.

(** ** [class GlobalHotKeys]

    The listener it extends is the platform's; of it the class uses
    [canonical], taken here as it comes.  The hot keys are kept in the
    order of the mapping's items, and their callbacks act on the caller's
    environment [E].  Their keys are the parts [parse] returns; what is
    proved of the listener holds of its hot keys however two parts
    compare. *)

Module GlobalHotKeys.
Section GlobalHotKeys.
Context `{StdLib} `{Backend} {E : Type}.
Variable canonical : HotKey.part -> HotKey.part.

(** [GlobalHotKeys.__init__], up to the call of the listener's own. *)
Definition init (hotkeys : list (text * (E -> E)))
  : result (list (HotKey.t HotKey.part E)) :=
  mapM (fun item => parsed ← HotKey.parse item.1; mret (HotKey.init parsed item.2))
       hotkeys.

(** [for hotkey in self._hotkeys: hotkey.press(key)] *)
Fixpoint press_each (key : HotKey.part) (hotkeys : list (HotKey.t HotKey.part E))
    (env : E) : list (HotKey.t HotKey.part E) * E :=
  match hotkeys with
  | [] => ([], env)
  | hotkey :: rest =>
      let '(hotkey', env') := HotKey.press key hotkey env in
      let '(rest', env'') := press_each key rest env' in
      (hotkey' :: rest', env'')
  end.

(** [GlobalHotKeys._on_press] *)
Definition _on_press (key : HotKey.part) (self : list (HotKey.t HotKey.part E))
    (env : E) : list (HotKey.t HotKey.part E) * E :=
  press_each (canonical key) self env.

(** [GlobalHotKeys._on_release] *)
Definition _on_release (key : HotKey.part) (self : list (HotKey.t HotKey.part E))
  : list (HotKey.t HotKey.part E) :=
  HotKey.release (canonical key) <$> self.


(** The callbacks of the listener, as they come. *)
Definition step (st : list (HotKey.t HotKey.part E) * E) (ev : HotKey.event HotKey.part)
  : list (HotKey.t HotKey.part E) * E :=
  match ev with
  | HotKey.Press key => _on_press key st.1 st.2
  | HotKey.Release key => (_on_release key st.1, st.2)
  end.

Definition run (evs : list (HotKey.event HotKey.part))
    (st : list (HotKey.t HotKey.part E) * E) : list (HotKey.t HotKey.part E) * E :=
  foldl step st evs.
End GlobalHotKeys.
End GlobalHotKeys.

(** ** The mouse controller of the Xorg platform *)

Module Mouse.
(** [int(p)] of an integer. *)
Definition int (p : Z) : Z := p.

(** [Controller._check_bounds], on integer coordinates. *)
Definition _check_bounds (args : list Z) : result (list Z) :=
  if negb (forallb (fun number => (-0x7FFF - 1 <=? number) && (number <=? 0x7FFF)) args)
  then Err (Exn ValueError [VTuple args])
  else Ok (int <$> args).

(** [class Button(enum.Enum)]: the buttons and their values; the value of
    [unknown] is [None]. *)
Inductive Button :=
  | unknown | left | middle | right | scroll_up | scroll_down | scroll_left
  | scroll_right | button8 | button9 | button10 | button11 | button12
  | button13 | button14 | button15 | button16 | button17 | button18
  | button19 | button20 | button21 | button22 | button23 | button24
  | button25 | button26 | button27 | button28 | button29 | button30.

Definition Button_members : list Button :=
  [unknown; left; middle; right; scroll_up; scroll_down; scroll_left;
    scroll_right; button8; button9; button10; button11; button12; button13;
    button14; button15; button16; button17; button18; button19; button20;
    button21; button22; button23; button24; button25; button26; button27;
    button28; button29; button30 ].

Definition Button_value (b : Button) : option Z :=
  match b with
  | unknown => None | left => Some 1 | middle => Some 2 | right => Some 3
  | scroll_up => Some 4 | scroll_down => Some 5 | scroll_left => Some 6
  | scroll_right => Some 7 | button8 => Some 8 | button9 => Some 9
  | button10 => Some 10 | button11 => Some 11 | button12 => Some 12
  | button13 => Some 13 | button14 => Some 14 | button15 => Some 15
  | button16 => Some 16 | button17 => Some 17 | button18 => Some 18
  | button19 => Some 19 | button20 => Some 20 | button21 => Some 21
  | button22 => Some 22 | button23 => Some 23 | button24 => Some 24
  | button25 => Some 25 | button26 => Some 26 | button27 => Some 27
  | button28 => Some 28 | button29 => Some 29 | button30 => Some 30
  end.

#[global] Instance Button_eq_dec : EqDecision Button.
Proof. solve_decision. Defined.

(** [Button(detail)]: the member of that value, or [ValueError]. *)
Definition Button_call (detail : Z) : result Button :=
  match find (fun b => bool_decide (Button_value b = Some detail)) Button_members with
  | Some b => Ok b
  | None => Err (Exn ValueError [VInt detail])
  end.

(** [Listener._button] *)
Definition _button (detail : Z) : Button :=
  match Button_call detail with
  | Ok b => b
  | Err _ => unknown
  end.

(** [Listener._SCROLL_BUTTONS] *)
Definition _SCROLL_BUTTONS : gmap (option Z) (Z * Z) :=
  <[Button_value scroll_left := (-1, 0)]>
    (<[Button_value scroll_right := (1, 0)]>
       (<[Button_value scroll_down := (0, -1)]>
          (<[Button_value scroll_up := (0, 1)]> ∅))).

(** The events of the X server the listener tells apart, by their type,
    and what an event carries. *)
Inductive event_type := ButtonPress | ButtonRelease | OtherEvent.

Record event := mkEvent {
  type : event_type;
  detail : Z;
  root_x : Z;
  root_y : Z
}.

(** The callbacks of a listener, with their arguments. *)
Inductive callback :=
  | on_scroll (x y dx dy : Z)
  | on_click (x y : Z) (button : Button) (pressed : bool)
  | on_move (x y : Z).

(** [Listener._handle]: the callback it invokes, if any. *)
Definition _handle (ev : event) : option callback :=
  let px := root_x ev in
  let py := root_y ev in
  match type ev with
  | ButtonPress =>
      match _SCROLL_BUTTONS !! Some (detail ev) with
      | Some scroll => Some (on_scroll px py scroll.1 scroll.2)
      | None => Some (on_click px py (_button (detail ev)) true)
      end
  | ButtonRelease =>
      if bool_decide (is_Some (_SCROLL_BUTTONS !! Some (detail ev))) then None
      else Some (on_click px py (_button (detail ev)) false)
  | OtherEvent => Some (on_move px py)
  end.

(** [Controller._scroll], by the calls of [click] it makes, in order, each
    with its button and its count; [click] is the base class's. *)
Definition _scroll (dx dy : Z) : result (list (Button * Z)) :=
  checked ← _check_bounds [dx; dy];
  match checked with
  | [dx; dy] =>
      Ok ((if bool_decide (dy ≠ 0)
           then [(if bool_decide (dy > 0) then scroll_up else scroll_down, Z.abs dy)]
           else [])
          ++ (if bool_decide (dx ≠ 0)
              then [(if bool_decide (dx > 0) then scroll_right else scroll_left, Z.abs dx)]
              else []))
  | _ => Err (Exn ValueError [VTuple checked])
  end.

(** [Controller._position_set], by the motion it sends to the X server;
    unpacking a tuple that is no pair is a [ValueError]. *)
Definition _position_set (pos : list Z) : result (Z * Z) :=
  checked ← _check_bounds pos;
  match checked with
  | [px; py] => Ok (px, py)
  | _ => Err (Exn ValueError [VStr (txt "values to unpack")])
  end.

(** What a listener reads from the clicks of [_scroll]: every click of a
    scroll button counts its direction once. *)
Definition scrolled (clicks : list (Button * Z)) : Z * Z :=
  foldl (fun total click =>
           match _SCROLL_BUTTONS !! Button_value click.1 with
           | Some direction =>
               (total.1 + click.2 * direction.1, total.2 + click.2 * direction.2)
           | None => total
           end)
        (0, 0) clicks.
End Mouse.

(** ** A platform to run the model on

    ASCII case mapping and decimal numerals, the five spacing accents of
    Latin-1 with their combining marks and a few canonical compositions,
    the X11 keysyms as the values of the named keys, and a [_handle] that
    has no key for a character beyond Latin-1 and says so by [ValueError].
    The theorems below hold of every platform; this one supplies their
    concrete instances. *)

Module Example.
Local Open Scope N_scope.

Definition upper_cp (c : N) : N :=
  if (97 <=? c) && (c <=? 122) then c - 32 else c.

Definition lower_cp (c : N) : N :=
  if (65 <=? c) && (c <=? 90) then c + 32 else c.

Fixpoint decimal (acc : Z) (s : text) : option Z :=
  match s with
  | [] => Some acc
  | c :: rest =>
      if (48 <=? c) && (c <=? 57)
      then decimal (10 * acc + Z.of_N (c - 48))%Z rest
      else None
  end.

Definition int_of_decimal (s : text) : option Z :=
  match s with
  | [] => None
  | _ => decimal 0%Z s
  end.

(** Spacing accent, its Unicode name, its combining mark. *)
Definition accents : list (N * string * N) :=
  [ (96, "GRAVE ACCENT", 0x300);
    (94, "CIRCUMFLEX ACCENT", 0x302);
    (126, "TILDE", 0x303);
    (168, "DIAERESIS", 0x308);
    (180, "ACUTE ACCENT", 0x301) ]%string.

Definition name_of (s : text) : result text :=
  match s with
  | [c] =>
      match find (fun a => c =? a.1.1) accents with
      | Some a => Ok (txt a.1.2)
      | None => Err (Exn ValueError [VStr (txt "no such name")])
      end
  | _ => Err (Exn TypeError [])
  end.

Definition lookup_name (name : text) : result text :=
  match find (fun a => bool_decide (txt "COMBINING " ++ txt a.1.2 = name)) accents with
  | Some a => Ok [a.2]
  | None => Err (Exn KeyError [VStr name])
  end.

(** Base letter, combining mark, composed letter. *)
Definition compositions : list (N * N * N) :=
  [ (97, 0x300, 0xE0); (97, 0x301, 0xE1); (97, 0x302, 0xE2);
    (97, 0x303, 0xE3); (97, 0x308, 0xE4);
    (101, 0x300, 0xE8); (101, 0x301, 0xE9); (101, 0x302, 0xEA);
    (101, 0x308, 0xEB);
    (110, 0x303, 0xF1);
    (111, 0x300, 0xF2); (111, 0x301, 0xF3); (111, 0x302, 0xF4);
    (111, 0x303, 0xF5); (111, 0x308, 0xF6) ].

Definition compose (base mark : N) : option N :=
  snd <$> find (fun t => (t.1.1 =? base) && (t.1.2 =? mark)) compositions.

Fixpoint normalize (s : text) : text :=
  match s with
  | [] => []
  | c :: rest =>
      match rest with
      | mark :: rest' =>
          match compose c mark with
          | Some composed => composed :: normalize rest'
          | None => c :: normalize rest
          end
      | [] => [c]
      end
  end.

#[export] Instance stdlib : StdLib := {|
  str_upper := fmap upper_cp;
  str_lower := fmap lower_cp;
  int_of_str := int_of_decimal;
  unicodedata_name := name_of;
  unicodedata_lookup := lookup_name;
  unicodedata_normalize_NFC := normalize
|}.

(** The keysyms the Xorg platform gives the named keys. *)
Definition keysym (k : Key) : Z :=
  match k with
  | alt | alt_l => 0xffe9 | alt_r => 0xffea | alt_gr => 0xff7e
  | backspace => 0xff08 | caps_lock => 0xffe5
  | cmd | cmd_l => 0xffeb | cmd_r => 0xffec
  | ctrl | ctrl_l => 0xffe3 | ctrl_r => 0xffe4
  | delete => 0xffff | down => 0xff54 | end_ => 0xff57 | enter => 0xff0d
  | esc => 0xff1b
  | f1 => 0xffbe | f2 => 0xffbf | f3 => 0xffc0 | f4 => 0xffc1 | f5 => 0xffc2
  | f6 => 0xffc3 | f7 => 0xffc4 | f8 => 0xffc5 | f9 => 0xffc6 | f10 => 0xffc7
  | f11 => 0xffc8 | f12 => 0xffc9 | f13 => 0xffca | f14 => 0xffcb
  | f15 => 0xffcc | f16 => 0xffcd | f17 => 0xffce | f18 => 0xffcf
  | f19 => 0xffd0 | f20 => 0xffd1
  | home => 0xff50 | left => 0xff51 | page_down => 0xff56
  | page_up => 0xff55 | right => 0xff53
  | shift | shift_l => 0xffe1 | shift_r => 0xffe2
  | space => 0x20 | tab => 0xff09 | up => 0xff52
  | insert => 0xff63 | menu => 0xff67 | num_lock => 0xff7f
  | pause => 0xff13 | print_screen => 0xff61 | scroll_lock => 0xff14
  end%Z.

Definition has_key (key : KeyCode) : bool :=
  match char key with
  | Some c => forallb (fun cp => cp <? 256) c
  | None => true
  end.

#[export] Instance platform : Backend := {|
  Key_code k := Some (from_vk (keysym k));
  platform_state := unit;
  platform_handle key is_press p :=
    (if has_key key then Ok tt else Err (Exn ValueError [VKeyCode key]), p)
|}.


(** The platform of [_base.py] itself: the same key values, and the
    [_handle] of the base class, which raises [NotImplementedError]. *)
Definition base_platform : Backend := {|
  Key_code k := Some (from_vk (keysym k));
  platform_state := unit;
  platform_handle key is_press p := (Err (Exn NotImplementedError []), p)
|}.

(** [UnicodeEncodeError], which derives from [UnicodeError], which
    derives from [ValueError]. *)
Definition UnicodeEncodeError : exn_class :=
  Subclass (Subclass ValueError "UnicodeError") "UnicodeEncodeError".

(** The same platform again, with a [_handle] that fails to encode a
    character beyond Latin-1. *)
Definition encoding_platform : Backend := {|
  Key_code k := Some (from_vk (keysym k));
  platform_state := unit;
  platform_handle key is_press p :=
    (if has_key key then Ok tt else Err (Exn UnicodeEncodeError [VKeyCode key]), p)
|}.

(** A fresh controller. *)
Definition controller : Controller.State := Controller.init tt.

(** A controller with the caps lock on. *)
Definition controller_in_capitals : Controller.State :=
  Controller.with_caps_lock true controller.

(** The dead tilde, as [from_dead] builds it. *)
Definition dead_tilde : KeyCode :=
  mkKeyCode (Some 0%Z) (Some [126]) true (Some [0x303]) None.

(** The dead circumflex, likewise. *)
Definition dead_circumflex : KeyCode :=
  mkKeyCode (Some 0%Z) (Some [94]) true (Some [0x302]) None.

(** The hot key of ctrl, shift and the letter t, counting its
    activations. *)
Definition ctrl_shift_t : HotKey.t HotKey.part nat :=
  HotKey.init [inl ctrl; inl shift; inr (from_char (Some (txt "t")))] S.
End Example.

(** ** What the statements assume of a platform *)

(** [unicodedata.normalize] never erases a text. *)
Definition NFC_keeps_text `{StdLib} : Prop :=
  forall t : text, t <> [] -> unicodedata_normalize_NFC t <> [].


(** The platform's [_handle] takes [key] without raising. *)
Definition accepted `{Backend} (key : KeyCode) : Prop :=
  forall is_press p, (platform_handle key is_press p).1 = Ok tt.

(** The calls of [_handle] that type [string]: each character pressed,
    then released. *)
Definition keystrokes (string : text) : list (KeyCode * bool) :=
  c ← string; [(from_char (Some [c]), true); (from_char (Some [c]), false)].

(** Every named key has a value, and the value a virtual key code. *)
Definition keys_have_codes `{Backend} : Prop :=
  forall k : Key, exists value code, Key_value k = Some value /\ vk value = Some code.


(** The method [m] leaves the field [f] of the controller as it finds it,
    whether it returns or raises. *)
Definition preserves `{StdLib} `{Backend} {A B} (f : Controller.State -> A)
    (m : Controller.M B) : Prop :=
  forall s, f (m s).2 = f s.

(** The dead key a controller keeps, if any, is dead. *)
Definition dead_key_is_dead `{StdLib} `{Backend} (s : Controller.State) : Prop :=
  forall d, Controller._dead_key s = Some d -> is_dead d = true.

(** The five base modifiers. *)
Definition base_modifiers : gset Key := {[alt_gr; alt; cmd; ctrl; shift]}.

(** The base modifier a named key is listed under in [_MODIFIER_KEYS]. *)
Definition base_of (k : Key) : option Key :=
  match k with
  | alt_gr => Some alt_gr
  | alt | alt_l | alt_r => Some alt
  | cmd | cmd_l | cmd_r => Some cmd
  | ctrl | ctrl_l | ctrl_r => Some ctrl
  | shift | shift_l | shift_r => Some shift
  | _ => None
  end.

(** No value stands for two base modifiers. *)
Definition modifiers_apart `{Backend} : Prop :=
  forall i j combination combination',
    _MODIFIER_KEYS !! i = Some combination ->
    _MODIFIER_KEYS !! j = Some combination' ->
    i <> j ->
    forall value, value ∈ combination.2 -> value ∉ combination'.2.

(** The named keys among parsed parts, in their order. *)
Definition named_parts (parsed : list HotKey.part) : list Key :=
  omap (fun p => match p with inl key => Some key | inr _ => None end) parsed.

(** The segments of a combination string by recursion on the text alone:
    [current] is the segment being read.  A ['+'] ends the segment unless
    the segment is still empty. *)
Fixpoint cut (current rest : text) : list text :=
  match rest with
  | [] => [current]
  | c :: rest' =>
      if bool_decide (c = HotKey.plus_sign) && negb (bool_decide (current = []))
      then current :: cut [] rest'
      else cut (current ++ [c]) rest'
  end.

(** * Properties *)

(** ** Exception classes and the values of the named keys *)

Lemma issubclass_refl (cls : exn_class) : issubclass cls cls = true.
Proof. destruct cls; cbn [issubclass]; by rewrite bool_decide_eq_true_2. Qed.

Lemma issubclass_of_class (cls base : exn_class) :
  cls = base -> issubclass cls base = true.
Proof. intros ->. apply issubclass_refl. Qed.

(** The value of a named key is that key's own object: no other named
    key has it, and no call of the class makes it. *)
Lemma Key_value_of `{Backend} (k : Key) (code : KeyCode) :
  Key_value k = Some code -> value_of code = Some k.
Proof.
  unfold Key_value. destruct (Key_code k); simpl; [|done]. by intros [= <-].
Qed.

Lemma Key_value_inj `{Backend} (k k' : Key) :
  Key_value k = Key_value k' -> is_Some (Key_value k) -> k = k'.
Proof.
  intros Heq [code Hcode]. pose proof (Key_value_of k code Hcode) as Hk.
  rewrite Heq in Hcode. apply Key_value_of in Hcode. congruence.
Qed.

(** ** Mouse: the bounds of a short integer *)

Lemma check_bounds_inside (args : list Z) :
  Forall (fun number => -32768 <= number <= 32767) args ->
  Mouse._check_bounds args = Ok args.
Proof.
  intros Hin. unfold Mouse._check_bounds.
  assert (forallb (fun number => (-0x7FFF - 1 <=? number) && (number <=? 0x7FFF)) args = true) as ->.
  { apply forallb_forall. intros x Hx.
    rewrite Forall_forall in Hin. specialize (Hin x (proj2 (list_elem_of_In _ _) Hx)).
    apply andb_true_intro. split; apply Z.leb_le; lia. }
  simpl. f_equal. unfold Mouse.int. apply list_fmap_id.
Qed.

Lemma check_bounds_outside (args : list Z) :
  Exists (fun number => number < -32768 \/ 32767 < number) args ->
  Mouse._check_bounds args = Err (Exn ValueError [VTuple args]).
Proof.
  intros Hout. unfold Mouse._check_bounds.
  assert (forallb (fun number => (-0x7FFF - 1 <=? number) && (number <=? 0x7FFF)) args = false) as ->; [|done].
  apply not_true_is_false. intros Hall.
  rewrite forallb_forall in Hall.
  apply Exists_exists in Hout as (x & Hx & Hrange).
  specialize (Hall x (proj1 (list_elem_of_In _ _) Hx)).
  apply andb_prop in Hall as [Hlo Hhi].
  apply Z.leb_le in Hlo, Hhi. lia.
Qed.

(** C9. [_check_bounds] returns its arguments, as integers, when every one
    lies in [-32768, 32767], and raises [ValueError] when some one does
    not. *)
Theorem check_bounds_short_range (args : list Z) :
  (Forall (fun number => -32768 <= number <= 32767) args ->
   Mouse._check_bounds args = Ok args) /\
  (Exists (fun number => number < -32768 \/ 32767 < number) args ->
   raises (Mouse._check_bounds args) ValueError).
Proof.
  split.
  - apply check_bounds_inside.
  - intros Hout. by rewrite check_bounds_outside.
Qed.

Lemma check_bounds_short_range_witness :
  Mouse._check_bounds [32767; -32768] = Ok [32767; -32768] /\
  raises (Mouse._check_bounds [32768; 0]) ValueError.
Proof.
  split.
  - apply (proj1 (check_bounds_short_range [32767; -32768])).
    repeat constructor; lia.
  - apply (proj2 (check_bounds_short_range [32768; 0])).
    apply Exists_cons_hd. right. lia.
Defined.

(** ** Hot keys: the state machine *)

Section HotKeyState.
Context `{Countable K} {E : Type}.
Implicit Types (self : HotKey.t K E) (key : K) (env : E)
  (st : HotKey.t K E * E) (ev : HotKey.event K) (evs : list (HotKey.event K)).
Import HotKey.

Lemma press_state key self env :
  _state (press key self env).1 =
    if bool_decide (key ∈ _keys self /\ key ∉ _state self)
    then {[key]} ∪ _state self else _state self.
Proof.
  unfold press.
  destruct (bool_decide_reflect (key ∈ _keys self)) as [Hk|Hk];
    destruct (bool_decide_reflect (key ∈ _state self)) as [Hs|Hs]; simpl;
    try (rewrite bool_decide_eq_false_2; [done | tauto]).
  rewrite (bool_decide_eq_true_2 (key ∈ _keys self /\ key ∉ _state self)); [|tauto].
  by case_bool_decide.
Qed.

Lemma press_keys key self env : _keys (press key self env).1 = _keys self.
Proof. unfold press. repeat (case_bool_decide; simpl); done. Qed.

Lemma press_callback key self env :
  (press key self env).2 =
    if activates key self then _on_activate self env else env.
Proof.
  unfold press, activates.
  destruct (bool_decide (key ∈ _keys self) && negb (bool_decide (key ∈ _state self)));
    simpl; [|done].
  by case_bool_decide.
Qed.

Lemma activates_spec key self :
  activates key self = true <->
  key ∈ _keys self /\ (key ∉ _state self) /\ ({[key]} ∪ _state self = _keys self).
Proof.
  unfold activates. rewrite !andb_true_iff, negb_true_iff.
  rewrite !bool_decide_eq_true, bool_decide_eq_false. tauto.
Qed.

Lemma release_state key self : _state (release key self) = _state self ∖ {[key]}.
Proof.
  unfold release.
  destruct (bool_decide_reflect (key ∈ _state self)); simpl; [done|]. set_solver.
Qed.

Lemma release_keys key self : _keys (release key self) = _keys self.
Proof. unfold release. by case_bool_decide. Qed.

Lemma step_keys st ev : _keys (step st ev).1 = _keys st.1.
Proof. destruct ev; simpl; [apply press_keys | apply release_keys]. Qed.

Lemma step_subset st ev :
  _state st.1 ⊆ _keys st.1 -> _state (step st ev).1 ⊆ _keys (step st ev).1.
Proof.
  intros Hsub. rewrite step_keys. destruct ev as [key|key]; simpl.
  - rewrite press_state. case_bool_decide; set_solver.
  - rewrite release_state. set_solver.
Qed.

Lemma run_snoc evs ev st : run (evs ++ [ev]) st = step (run evs st) ev.
Proof. unfold run. by rewrite foldl_app. Qed.

Lemma run_app evs1 evs2 st : run (evs1 ++ evs2) st = run evs2 (run evs1 st).
Proof. unfold run. by rewrite foldl_app. Qed.

(** A complete hot key ignores every press. *)
Lemma press_complete key self env :
  _state self = _keys self -> press key self env = (self, env).
Proof.
  intros Heq. unfold press. rewrite Heq.
  by destruct (bool_decide (key ∈ _keys self)).
Qed.

Lemma release_absent key self : key ∉ _state self -> release key self = self.
Proof. intros Hno. unfold release. by rewrite bool_decide_eq_false_2. Qed.

(** From a complete hot key, either some release takes a key out of the
    state, or nothing changes at all. *)
Lemma complete_until_release evs st :
  _state st.1 = _keys st.1 ->
  (exists evs1 key evs2,
      evs = evs1 ++ Release key :: evs2 /\ key ∈ _state (run evs1 st).1)
  \/ run evs st = st.
Proof.
  revert st. induction evs as [|ev evs IH]; intros [self env] Hfull; [by right|].
  simpl in Hfull.
  assert (Hcase : (exists key, ev = Release key /\ key ∈ _state self)
                  \/ step (self, env) ev = (self, env)).
  { destruct ev as [key|key]; simpl.
    - right. by apply press_complete.
    - destruct (decide (key ∈ _state self)) as [Hin|Hno].
      + left. eauto.
      + right. by rewrite release_absent. }
  destruct Hcase as [(key & -> & Hin)|Hsame].
  - left. exists [], key, evs. done.
  - destruct (IH (self, env) Hfull) as [(evs1 & key & evs2 & -> & Hin)|Hrun].
    + left. exists (ev :: evs1), key, evs2. split; [done|].
      unfold run. simpl. by rewrite Hsame.
    + right. unfold run. simpl. by rewrite Hsame.
Qed.

(** C8. After every sequence of [press] and [release] calls on a hot key
    built from [keys], the state is a subset of the keys, which are the
    ones given. *)
Theorem hotkey_state_subset_keys (keys : list K) (on_activate : E -> E)
    (evs : list (event K)) (env : E) :
  _state (run evs (init keys on_activate, env)).1
    ⊆ _keys (run evs (init keys on_activate, env)).1
  /\ _keys (run evs (init keys on_activate, env)).1 = list_to_set keys.
Proof.
  induction evs as [|ev evs [IHsub IHkeys]] using rev_ind.
  - split; [set_solver | done].
  - rewrite run_snoc. split; [by apply step_subset|].
    by rewrite step_keys.
Qed.

(** C6. [press] adds the key to the state only if it is one of the keys
    and not yet in the state; [on_activate] is called exactly when that
    addition makes the state equal to the keys; and between two calls of
    [on_activate] some [release] has taken a key out of the state, after
    which the second call completes the state again. *)
Theorem hotkey_activation (key : K) (self : HotKey.t K E) (env : E) :
  _state (press key self env).1 =
    (if bool_decide (key ∈ _keys self /\ key ∉ _state self)
     then {[key]} ∪ _state self else _state self)
  /\ (press key self env).2 =
       (if activates key self then _on_activate self env else env)
  /\ (activates key self = true <->
      key ∈ _keys self /\ (key ∉ _state self) /\
      _state (press key self env).1 = _keys self)
  /\ (activates key self = true ->
      forall (evs : list (event K)) (key' : K),
        activates key' (run evs (press key self env)).1 = true ->
        exists evs1 released evs2,
          evs = evs1 ++ Release released :: evs2
          /\ released ∈ _state (run evs1 (press key self env)).1
          /\ ({[key']} ∪ _state (run evs (press key self env)).1 = _keys self)).
Proof.
  split; [apply press_state|]. split; [apply press_callback|]. split.
  - rewrite activates_spec, press_state.
    split.
    + intros (Hk & Hs & Heq). rewrite bool_decide_eq_true_2; tauto.
    + intros (Hk & Hs & Heq). rewrite bool_decide_eq_true_2 in Heq; tauto.
  - intros Hact evs key' Hact'.
    apply activates_spec in Hact as (Hk & Hs & Heq).
    assert (Hfull : _state (press key self env).1 = _keys (press key self env).1).
    { rewrite press_keys, press_state, bool_decide_eq_true_2; tauto. }
    apply activates_spec in Hact' as (Hk' & Hs' & Heq').
    destruct (complete_until_release evs _ Hfull)
      as [(evs1 & released & evs2 & -> & Hin)|Hsame].
    + exists evs1, released, evs2. split; [done|]. split; [done|].
      rewrite Heq'. clear. 
      induction (evs1 ++ Release released :: evs2) as [|ev evs IH] using rev_ind.
      * apply press_keys.
      * by rewrite run_snoc, step_keys.
    + rewrite Hsame in Hk', Hs'. rewrite <- Hfull in Hk'. done.
Qed.
End HotKeyState.

(** Ctrl, shift and t pressed in turn activate once; a repeated t does
    not; shift released and pressed again does. *)
Example ctrl_shift_t_fires_once :
  let t := inr (from_char (Some (txt "t"))) in
  (HotKey.run [HotKey.Press (inl ctrl); HotKey.Press (inl shift)]
     (Example.ctrl_shift_t, 0%nat)).2 = 0%nat
  /\ (HotKey.run [HotKey.Press (inl ctrl); HotKey.Press (inl shift); HotKey.Press t]
        (Example.ctrl_shift_t, 0%nat)).2 = 1%nat
  /\ (HotKey.run [HotKey.Press (inl ctrl); HotKey.Press (inl shift); HotKey.Press t;
                  HotKey.Press t] (Example.ctrl_shift_t, 0%nat)).2 = 1%nat
  /\ (HotKey.run [HotKey.Press (inl ctrl); HotKey.Press (inl shift); HotKey.Press t;
                  HotKey.Press t; HotKey.Release (inl shift);
                  HotKey.Press (inl shift)] (Example.ctrl_shift_t, 0%nat)).2 = 2%nat.
Proof. vm_compute. done. Qed.

Lemma hotkey_activation_witness :
  let t := inr (from_char (Some (txt "t"))) in
  let self := (HotKey.run [HotKey.Press (inl ctrl); HotKey.Press (inl shift)]
                 (Example.ctrl_shift_t, 0%nat)).1 in
  let evs := [HotKey.Press t; HotKey.Release (inl shift)] in
  HotKey.activates t self = true
  /\ (t ∈ HotKey._keys self /\ (t ∉ HotKey._state self)
      /\ HotKey._state (HotKey.press t self 0%nat).1 = HotKey._keys self)
  /\ (HotKey.press t self 0%nat).2 = 1%nat
  /\ HotKey.activates (inl shift) (HotKey.run evs (HotKey.press t self 0%nat)).1 = true
  /\ exists evs1 released evs2,
       evs = evs1 ++ HotKey.Release released :: evs2
       /\ released ∈ HotKey._state (HotKey.run evs1 (HotKey.press t self 0%nat)).1
       /\ {[inl shift]} ∪ HotKey._state (HotKey.run evs (HotKey.press t self 0%nat)).1
          = HotKey._keys self.
Proof.
  intros t self evs.
  assert (Hfirst : HotKey.activates t self = true) by (vm_compute; reflexivity).
  assert (Hsecond : HotKey.activates (inl shift)
                      (HotKey.run evs (HotKey.press t self 0%nat)).1 = true)
    by (vm_compute; reflexivity).
  split; [exact Hfirst|]. split; [|split; [|split; [exact Hsecond|]]].
  - exact (proj1 (proj1 (proj2 (proj2 (hotkey_activation t self 0%nat)))) Hfirst).
  - rewrite (proj1 (proj2 (hotkey_activation t self 0%nat))), Hfirst. reflexivity.
  - exact (proj2 (proj2 (proj2 (hotkey_activation t self 0%nat)))
             Hfirst evs (inl shift) Hsecond).
Defined.

(** ** Key codes: dead keys and [join] *)

Section KeyCodeProps.
Context `{StdLib}.

Lemma KeyCode_init_fields v c d k :
  KeyCode_init v c d = Ok k -> vk k = v /\ char k = c /\ is_dead k = d.
Proof.
  unfold KeyCode_init. destruct d.
  - destruct c as [c|]; [|done].
    destruct (unicodedata_name c) as [name|]; simpl; [|done].
    destruct (unicodedata_lookup _) as [mark|]; simpl; [|done].
    case_bool_decide; [done|]. by intros [= <-].
  - by intros [= <-].
Qed.

Lemma KeyCode_init_valid v c d k : KeyCode_init v c d = Ok k -> KeyCode_valid k.
Proof.
  unfold KeyCode_init, KeyCode_valid. destruct d.
  - destruct c as [c|]; [|done].
    destruct (unicodedata_name c) as [name|]; simpl; [|done].
    destruct (unicodedata_lookup _) as [mark|]; simpl; [|done].
    case_bool_decide; [done|]. intros [= <-]. simpl. eauto.
  - by intros [= <-].
Qed.

Lemma from_vk_init v : KeyCode_init (Some v) None false = Ok (from_vk v).
Proof. done. Qed.

Lemma from_char_init c : KeyCode_init (Some 0) c false = Ok (from_char c).
Proof. done. Qed.

Lemma from_dead_fields ch d :
  from_dead ch = Ok d ->
  char d = Some ch /\ is_dead d = true /\ exists mark, combining d = Some mark /\ mark <> [].
Proof.
  intros Hd. unfold from_dead in Hd.
  destruct (KeyCode_init_fields _ _ _ _ Hd) as (_ & Hc & Hdead).
  apply KeyCode_init_valid in Hd. unfold KeyCode_valid in Hd.
  rewrite Hdead in Hd. destruct Hd as (c & mark & _ & Hm & Hne). eauto.
Qed.

(** The result of a [join] is never dead. *)
Lemma join_not_dead d k j : join d k = Ok j -> is_dead j = false.
Proof.
  unfold join. destruct (_ || _); [by intros [= <-]|].
  destruct (char k); [|done]. destruct (combining d); [|done].
  case_bool_decide; [done|]. by intros [= <-].
Qed.

Lemma join_plain d k :
  char k = Some (txt " ") \/ (is_dead k = true /\ char k = char d) ->
  join d k = Ok (from_char (char d)).
Proof.
  intros Hcase. unfold join.
  assert (bool_decide (char k = Some (txt " "))
          || (is_dead k && bool_decide (char k = char d)) = true) as ->; [|done].
  apply orb_true_iff. destruct Hcase as [Hsp|[Hdead Hsame]].
  - left. by apply bool_decide_eq_true.
  - right. rewrite Hdead. by apply bool_decide_eq_true.
Qed.

Lemma join_otherwise d k :
  ~ (char k = Some (txt " ") \/ (is_dead k = true /\ char k = char d)) ->
  join d k =
    match char k with
    | Some c =>
        match combining d with
        | None => Err (Exn TypeError [])
        | Some mark =>
            if bool_decide (unicodedata_normalize_NFC (c ++ mark) = [])
            then Err (Exn ValueError [VKeyCode k])
            else Ok (from_char (Some (unicodedata_normalize_NFC (c ++ mark))))
        end
    | None => Err (Exn ValueError [VKeyCode k])
    end.
Proof.
  intros Hcase. unfold join.
  assert (bool_decide (char k = Some (txt " "))
          || (is_dead k && bool_decide (char k = char d)) = false) as ->; [|done].
  apply not_true_is_false. intros Htrue. apply Hcase.
  apply orb_true_iff in Htrue as [Hsp|Hsame].
  - left. by apply bool_decide_eq_true in Hsp.
  - right. apply andb_true_iff in Hsame as [Hdead Hsame].
    by apply bool_decide_eq_true in Hsame.
Qed.

(** C4, as the code has it: the failure of [join] is a [ValueError].
    For a dead key [d] with combining mark [mark] and any key [k]:
    [join] gives the plain form of [d]'s character when [k] is a space or
    the same dead key, in particular for the dead key [from_dead] made of
    [ch]; otherwise, when [k] has a character, the key of the NFC form of
    that character followed by the mark, when that form is not empty;
    and in every remaining case it raises [ValueError] with [k] as its
    argument. *)
Theorem join_composition (d k : KeyCode) (mark : text)
    (Hmark : combining d = Some mark) :
  let is_plain := char k = Some (txt " ") \/ (is_dead k = true /\ char k = char d) in
  (is_plain -> join d k = Ok (from_char (char d)))
  /\ (forall ch, from_dead ch = Ok d ->
      join d (from_char (Some (txt " "))) = Ok (from_char (Some ch)))
  /\ (~ is_plain ->
      forall c, char k = Some c ->
      unicodedata_normalize_NFC (c ++ mark) <> [] ->
      join d k = Ok (from_char (Some (unicodedata_normalize_NFC (c ++ mark)))))
  /\ (~ is_plain ->
      (forall c, char k = Some c -> unicodedata_normalize_NFC (c ++ mark) = []) ->
      join d k = Err (Exn ValueError [VKeyCode k])).
Proof.
  intros is_plain. split; [apply join_plain|]. split; [|split].
  - intros ch Hd. apply from_dead_fields in Hd as (Hc & _).
    rewrite join_plain; [by rewrite Hc | by left].
  - intros Hno c Hc Hnfc. rewrite join_otherwise, Hc, Hmark by done.
    by rewrite bool_decide_eq_false_2.
  - intros Hno Hall. rewrite join_otherwise, Hmark by done.
    destruct (char k) as [c|]; [|done].
    by rewrite bool_decide_eq_true_2 by auto.
Qed.
End KeyCodeProps.

Section JoinOnExample.
#[local] Existing Instance Example.stdlib.

Lemma join_composition_witness :
  from_dead (txt "~") = Ok Example.dead_tilde
  /\ join Example.dead_tilde (from_char (Some (txt " "))) = Ok (from_char (Some (txt "~")))
  /\ join Example.dead_tilde Example.dead_tilde = Ok (from_char (Some (txt "~")))
  /\ join Example.dead_tilde (from_char (Some (txt "a"))) = Ok (from_char (Some [0xE3%N]))
  /\ join Example.dead_tilde (from_vk 65) = Err (Exn ValueError [VKeyCode (from_vk 65)]).
Proof.
  assert (Hdead : from_dead (txt "~") = Ok Example.dead_tilde) by reflexivity.
  split; [exact Hdead|]. split; [|split; [|split]].
  - exact (proj1 (proj2 (join_composition Example.dead_tilde
                           (from_char (Some (txt " "))) [0x303%N] eq_refl))
             (txt "~") Hdead).
  - apply (proj1 (join_composition Example.dead_tilde Example.dead_tilde
                    [0x303%N] eq_refl)).
    right. split; reflexivity.
  - refine (proj1 (proj2 (proj2 (join_composition Example.dead_tilde
                    (from_char (Some (txt "a"))) [0x303%N] eq_refl)))
              _ (txt "a") eq_refl _).
    + intros [Hsp|[Hd _]]; discriminate.
    + discriminate.
  - apply (proj2 (proj2 (proj2 (join_composition Example.dead_tilde
                    (from_vk 65) [0x303%N] eq_refl)))).
    + intros [Hsp|[Hd _]]; discriminate.
    + intros c Hc. discriminate.
Defined.

(** C4, as stated, fails: a key without a character does not compose,
    and what [join] raises then is a [ValueError], not an exception of a
    class of its own. *)
Lemma join_failure_is_not_InvalidComposition :
  join Example.dead_tilde (from_vk 65) = Err (Exn ValueError [VKeyCode (from_vk 65)])
  /\ ~ raises (join Example.dead_tilde (from_vk 65)) (OtherError "InvalidComposition").
Proof. split; [reflexivity | discriminate]. Qed.
End JoinOnExample.

(** ** The keyboard controller *)

Section ControllerProps.
Context `{StdLib} `{Backend}.
Import Controller.
Implicit Types (s : State) (key d : KeyCode) (okey : option KeyCode).

Lemma bind_run {A B} (m : M A) (f : A -> M B) s :
  (m ≫= f) s = match m s with
               | (Ok a, s') => f a s'
               | (Err e, s') => (Err e, s')
               end.
Proof. done. Qed.

Ltac msimpl :=
  repeat (rewrite ?bind_run;
          unfold lift, get, put, set_dead_key, set_caps_lock, set_modifiers,
                 attr_of, mret, M_ret, mthrow, M_throw;
          simpl).

(** The first block of [_dispatch] never raises and touches the
    modifiers only. *)
Lemma update_modifiers_run okey is_press s :
  exists m, update_modifiers okey is_press s = (Ok tt, with_modifiers m s).
Proof.
  unfold update_modifiers. destruct (_as_modifier okey) as [modifier|].
  - rewrite bind_run. simpl. destruct is_press.
    + by eexists.
    + unfold try_except. rewrite bind_run. unfold lift, set_remove.
      case_bool_decide; simpl.
      * by eexists.
      * exists (_modifiers s). by destruct s.
  - exists (_modifiers s). by destruct s.
Qed.

Lemma update_caps_lock_run okey s :
  exists b, update_caps_lock okey s = (Ok tt, with_caps_lock b s).
Proof.
  unfold update_caps_lock. case_bool_decide.
  - by eexists.
  - exists (_caps_lock s). by destruct s.
Qed.

Lemma _handle_accepted key is_press s :
  accepted key ->
  _handle key is_press s =
    (Ok tt, with_call key is_press (platform_handle key is_press (platform s)).2 s).
Proof.
  intros Hok. unfold _handle. specialize (Hok is_press (platform s)).
  destruct (platform_handle key is_press (platform s)) as [r p]. simpl in *.
  by subst.
Qed.

(** Only a key without a character fails to join a dead key. *)
Lemma join_fails_no_char d key :
  NFC_keeps_text -> KeyCode_valid d -> is_dead d = true ->
  raises (join d key) ValueError -> char key = None.
Proof.
  intros Hnfc Hvalid Hdead. unfold KeyCode_valid in Hvalid. rewrite Hdead in Hvalid.
  destruct Hvalid as (c0 & mark & _ & Hmark & Hne).
  unfold join. destruct (_ || _); [done|].
  destruct (char key) as [c|]; [|done]. rewrite Hmark.
  case_bool_decide as Hempty; [|done].
  exfalso. apply (Hnfc (c ++ mark)); [|done].
  intros Happ. by apply app_eq_nil in Happ as [_ ?].
Qed.

Lemma valid_no_char_not_dead key :
  KeyCode_valid key -> char key = None -> is_dead key = false.
Proof.
  unfold KeyCode_valid. destruct (is_dead key); [|done].
  intros (c & mark & Hc & _) Hnone. congruence.
Qed.

(** A pending dead key and a key it joins with: the joined key is
    handled, once. *)
Lemma dispatch_joined s d key joined :
  _dead_key s = Some d -> join d key = Ok joined -> accepted joined ->
  exists s', _dispatch (Some key) true s = (Ok tt, s')
             /\ handled s' = handled s ++ [(joined, true)]
             /\ _dead_key s' = None.
Proof.
  intros Hpending Hjoin Hok. unfold _dispatch.
  rewrite bind_run. destruct (update_modifiers_run (Some key) true s) as [m ->].
  rewrite bind_run. destruct (update_caps_lock_run (Some key) (with_modifiers m s)) as [b ->].
  unfold join_dead_key. msimpl. rewrite Hpending. unfold try_except. msimpl.
  rewrite Hjoin. msimpl. rewrite (join_not_dead _ _ _ Hjoin).
  rewrite (_handle_accepted _ _ _ Hok). eexists. split; [done|]. done.
Qed.

(** A pending dead key and a key it does not join with: the dead key is
    pressed and released, then the key is handled. *)
Lemma dispatch_flushed s d key :
  _dead_key s = Some d -> is_dead key = false ->
  raises (join d key) ValueError -> accepted d -> accepted key ->
  exists s', _dispatch (Some key) true s = (Ok tt, s')
             /\ handled s' = handled s ++ [(d, true); (d, false); (key, true)]
             /\ _dead_key s' = None.
Proof.
  intros Hpending Hplain Hjoin Hd Hkey. unfold _dispatch.
  rewrite bind_run. destruct (update_modifiers_run (Some key) true s) as [m ->].
  rewrite bind_run. destruct (update_caps_lock_run (Some key) (with_modifiers m s)) as [b ->].
  unfold join_dead_key. msimpl. rewrite Hpending. unfold try_except. msimpl.
  destruct (join d key) as [joined|e]; [done|]. simpl in Hjoin. rewrite Hjoin.
  msimpl.
  rewrite (_handle_accepted _ _ _ Hd). msimpl.
  rewrite (_handle_accepted _ _ _ Hd). msimpl. rewrite Hplain.
  rewrite (_handle_accepted _ _ _ Hkey). eexists. split; [done|].
  simpl. by rewrite <- !app_assoc.
Qed.

(** No dead key pending: a dead key is kept, and nothing is handled. *)
Lemma dispatch_stashed s key :
  _dead_key s = None -> is_dead key = true ->
  exists s', _dispatch (Some key) true s = (Ok tt, s')
             /\ _dead_key s' = Some key
             /\ handled s' = handled s /\ platform s' = platform s.
Proof.
  intros Hnone Hdead. unfold _dispatch.
  rewrite bind_run. destruct (update_modifiers_run (Some key) true s) as [m ->].
  rewrite bind_run. destruct (update_caps_lock_run (Some key) (with_modifiers m s)) as [b ->].
  unfold join_dead_key. msimpl. rewrite Hnone. msimpl. rewrite Hdead.
  eexists. by split.
Qed.

(** A dead key as [__init__] builds it joins with every key that has a
    character, where NFC never erases a text. *)
Lemma join_with_char d key (c : text) :
  NFC_keeps_text -> KeyCode_valid d -> is_dead d = true -> char key = Some c ->
  exists joined, join d key = Ok joined.
Proof.
  intros Hnfc Hvalid Hdead Hc. unfold KeyCode_valid in Hvalid. rewrite Hdead in Hvalid.
  destruct Hvalid as (c0 & mark & _ & Hmark & Hne).
  unfold join. destruct (_ || _); [by eexists|].
  rewrite Hc, Hmark. rewrite bool_decide_eq_false_2; [by eexists|].
  apply Hnfc. intros Happ. by apply app_eq_nil in Happ as [_ ?].
Qed.

(** A pending dead key and a key it joins with, whatever [_handle] does
    with the joined key: it is called on that key, once, and no dead key
    is kept. *)
Lemma dispatch_joined_calls s d key joined :
  _dead_key s = Some d -> join d key = Ok joined ->
  handled (_dispatch (Some key) true s).2 = handled s ++ [(joined, true)]
  /\ _dead_key (_dispatch (Some key) true s).2 = None.
Proof.
  intros Hpending Hjoin. unfold _dispatch.
  rewrite bind_run. destruct (update_modifiers_run (Some key) true s) as [m ->].
  rewrite bind_run. destruct (update_caps_lock_run (Some key) (with_modifiers m s)) as [b ->].
  unfold join_dead_key. msimpl. rewrite Hpending. unfold try_except. msimpl.
  rewrite Hjoin. msimpl. rewrite (join_not_dead _ _ _ Hjoin).
  unfold _handle. simpl. by destruct (platform_handle joined true (platform s)).
Qed.

(** A pending dead key and a dead key it does not join with: the pending
    one is pressed and released, the new one kept. *)
Lemma dispatch_flushed_dead s d key :
  _dead_key s = Some d -> is_dead key = true ->
  raises (join d key) ValueError -> accepted d ->
  exists s', _dispatch (Some key) true s = (Ok tt, s')
             /\ handled s' = handled s ++ [(d, true); (d, false)]
             /\ _dead_key s' = Some key.
Proof.
  intros Hpending Hdead Hjoin Hd. unfold _dispatch.
  rewrite bind_run. destruct (update_modifiers_run (Some key) true s) as [m ->].
  rewrite bind_run. destruct (update_caps_lock_run (Some key) (with_modifiers m s)) as [b ->].
  unfold join_dead_key. msimpl. rewrite Hpending. unfold try_except. msimpl.
  destruct (join d key) as [joined|e]; [done|]. simpl in Hjoin. rewrite Hjoin.
  msimpl.
  rewrite (_handle_accepted _ _ _ Hd). msimpl.
  rewrite (_handle_accepted _ _ _ Hd). msimpl. rewrite Hdead.
  eexists. split; [done|]. simpl. by rewrite <- !app_assoc.
Qed.

(** The release of a dead key is not handled. *)
Lemma dispatch_released_dead s key :
  is_dead key = true ->
  exists s', _dispatch (Some key) false s = (Ok tt, s')
             /\ handled s' = handled s /\ platform s' = platform s
             /\ _dead_key s' = _dead_key s.
Proof.
  intros Hdead. unfold _dispatch.
  rewrite bind_run. destruct (update_modifiers_run (Some key) false s) as [m ->].
  msimpl. rewrite Hdead. eexists. by split.
Qed.

(** C3, as the code has it.  With a dead key pending, the next press is
    joined with it and the joined key handled, no dead key kept; when the
    join fails, the dead key is first pressed and released through
    [_handle] and the new key handled after, three calls in all.  A dead
    key pressed while one is pending is joined like any other key: it is
    not kept, and [_handle] is called on the joined key, which is not
    dead; only if the join failed would the pending key be pressed and
    released and the new dead key kept.  A dead key is kept, and
    [_handle] not called, when it is pressed while none is pending.  The
    release of a dead key never reaches [_handle]. *)
Theorem dispatch_dead_key (s : State) (d key : KeyCode) :
  (_dead_key s = Some d ->
   forall joined, join d key = Ok joined -> accepted joined ->
   exists s', _dispatch (Some key) true s = (Ok tt, s')
              /\ handled s' = handled s ++ [(joined, true)]
              /\ _dead_key s' = None)
  /\ (_dead_key s = Some d ->
      NFC_keeps_text -> KeyCode_valid d -> is_dead d = true -> KeyCode_valid key ->
      raises (join d key) ValueError -> accepted d -> accepted key ->
      exists s', _dispatch (Some key) true s = (Ok tt, s')
                 /\ handled s' = handled s ++ [(d, true); (d, false); (key, true)]
                 /\ _dead_key s' = None)
  /\ (_dead_key s = Some d -> is_dead key = true ->
      NFC_keeps_text -> KeyCode_valid d -> is_dead d = true -> KeyCode_valid key ->
      exists joined,
        join d key = Ok joined /\ is_dead joined = false
        /\ handled (_dispatch (Some key) true s).2 = handled s ++ [(joined, true)]
        /\ _dead_key (_dispatch (Some key) true s).2 = None)
  /\ (_dead_key s = Some d -> is_dead key = true ->
      raises (join d key) ValueError -> accepted d ->
      exists s', _dispatch (Some key) true s = (Ok tt, s')
                 /\ handled s' = handled s ++ [(d, true); (d, false)]
                 /\ _dead_key s' = Some key)
  /\ (_dead_key s = None -> is_dead key = true ->
      exists s', _dispatch (Some key) true s = (Ok tt, s')
                 /\ _dead_key s' = Some key
                 /\ handled s' = handled s /\ platform s' = platform s)
  /\ (is_dead key = true ->
      exists s', _dispatch (Some key) false s = (Ok tt, s')
                 /\ handled s' = handled s /\ platform s' = platform s
                 /\ _dead_key s' = _dead_key s).
Proof.
  split; [|split; [|split; [|split; [|split]]]].
  - intros Hpending joined Hjoin Hok. by eapply dispatch_joined.
  - intros Hpending Hnfc Hd Hdead Hkey Hjoin Hokd Hokk.
    apply dispatch_flushed; try done.
    apply valid_no_char_not_dead; [done|].
    by apply (join_fails_no_char d).
  - intros Hpending Hkdead Hnfc Hd Hdead Hkey.
    assert (Hchar : exists c, char key = Some c).
    { unfold KeyCode_valid in Hkey. rewrite Hkdead in Hkey.
      destruct Hkey as (c & _ & Hc & _). by exists c. }
    destruct Hchar as [c Hc].
    destruct (join_with_char d key c Hnfc Hd Hdead Hc) as [joined Hjoin].
    exists joined. split; [done|]. split; [by apply (join_not_dead d key)|].
    by apply (dispatch_joined_calls s d).
  - apply dispatch_flushed_dead.
  - apply dispatch_stashed.
  - apply dispatch_released_dead.
Qed.

(** C10. Releasing a modifier key whose base modifier is not in the
    modifier set: the [KeyError] of [set.remove] is caught, the set stays
    as it is, and the release goes to [_handle]. *)
Theorem release_absent_modifier (s : State) (key : KeyCode) (modifier : Key) :
  _as_modifier (Some key) = Some modifier ->
  modifier ∉ _modifiers s ->
  is_dead key = false ->
  raises (set_remove modifier (_modifiers s)) KeyError
  /\ _dispatch (Some key) false s = _handle key false s
  /\ _modifiers (_dispatch (Some key) false s).2 = _modifiers s
  /\ handled (_dispatch (Some key) false s).2 = handled s ++ [(key, false)].
Proof.
  intros Hmod Hout Hplain.
  assert (Hremove : set_remove modifier (_modifiers s) = Err (Exn KeyError [VKey modifier])).
  { unfold set_remove. by rewrite bool_decide_eq_false_2. }
  assert (Hrun : _dispatch (Some key) false s = _handle key false s).
  { unfold _dispatch, update_modifiers. rewrite Hmod. msimpl.
    unfold try_except. msimpl. rewrite Hremove. msimpl.
    by rewrite Hplain. }
  split; [by rewrite Hremove|]. split; [done|]. rewrite Hrun.
  unfold _handle. by destruct (platform_handle _ _ _).
Qed.

(** [press] and [release] of a string that is not one character long. *)
Lemma touch_long_string (t : text) (is_press : bool) (s : State) :
  length t <> 1%nat ->
  touch (VStr t) is_press s = (Err (Exn ValueError [VStr t]), s).
Proof.
  intros Hlen. unfold touch, press, release.
  destruct is_press; msimpl; by rewrite bool_decide_eq_true_2.
Qed.

Lemma dispatch_None is_press s :
  raises (_dispatch None is_press s).1 AttributeError
  /\ handled (_dispatch None is_press s).2 = handled s.
Proof.
  unfold _dispatch. rewrite bind_run.
  destruct (update_modifiers_run None is_press s) as [m ->].
  destruct is_press; [|by msimpl].
  rewrite bind_run. destruct (update_caps_lock_run None (with_modifiers m s)) as [b ->].
  unfold join_dead_key. msimpl. destruct (_dead_key s) as [d|]; [|by msimpl].
  unfold try_except. msimpl. done.
Qed.

(** C2 on the code: a key that is no [Key], no string and no [KeyCode]
    resolves to [None], and [press] and [release] then raise
    [AttributeError], not [InvalidKeyException]; nothing is handled. *)
Theorem touch_unresolvable (z : Z) (is_press : bool) (s : State) :
  raises (touch VNone is_press s).1 AttributeError
  /\ raises (touch (VInt z) is_press s).1 AttributeError
  /\ ~ raises (touch VNone is_press s).1 InvalidKeyException
  /\ handled (touch VNone is_press s).2 = handled s.
Proof.
  assert (Hnone : touch VNone is_press s = _dispatch None is_press s)
    by (by destruct is_press).
  assert (Hint : touch (VInt z) is_press s = _dispatch None is_press s)
    by (by destruct is_press).
  rewrite Hnone, Hint.
  destruct (dispatch_None is_press s) as [Hraise Hsame].
  repeat split; try done.
  destruct (_dispatch None is_press s).1; simpl in *; [done|].
  by rewrite Hraise.
Qed.

(** A key that is not dead, pressed while no dead key is pending, and
    released. *)
Lemma dispatch_plain_press s key :
  _dead_key s = None -> is_dead key = false -> accepted key ->
  exists s', _dispatch (Some key) true s = (Ok tt, s')
             /\ handled s' = handled s ++ [(key, true)]
             /\ _dead_key s' = None.
Proof.
  intros Hnone Hplain Hok. unfold _dispatch.
  rewrite bind_run. destruct (update_modifiers_run (Some key) true s) as [m ->].
  rewrite bind_run. destruct (update_caps_lock_run (Some key) (with_modifiers m s)) as [b ->].
  unfold join_dead_key. msimpl. rewrite Hnone. msimpl. rewrite Hplain.
  rewrite (_handle_accepted _ _ _ Hok). eexists. by split.
Qed.

Lemma dispatch_plain_release s key :
  is_dead key = false -> accepted key ->
  exists s', _dispatch (Some key) false s = (Ok tt, s')
             /\ handled s' = handled s ++ [(key, false)]
             /\ _dead_key s' = _dead_key s.
Proof.
  intros Hplain Hok. unfold _dispatch.
  rewrite bind_run. destruct (update_modifiers_run (Some key) false s) as [m ->].
  msimpl. rewrite Hplain.
  rewrite (_handle_accepted _ _ _ Hok). eexists. by split.
Qed.

Lemma keystroke_ok (c : N) s :
  _dead_key s = None -> accepted (from_char (Some [c])) ->
  exists s', (press (VStr [c]) ;; release (VStr [c])) s = (Ok tt, s')
             /\ handled s' = handled s ++ keystrokes [c]
             /\ _dead_key s' = None.
Proof.
  intros Hnone Hok. unfold press, release. msimpl.
  destruct (dispatch_plain_press s (from_char (Some [c])) Hnone eq_refl Hok)
    as (s1 & -> & Hcalls1 & Hnone1).
  msimpl.
  destruct (dispatch_plain_release s1 (from_char (Some [c])) eq_refl Hok)
    as (s2 & -> & Hcalls2 & Hnone2).
  exists s2. split; [done|]. split; [|congruence].
  rewrite Hcalls2, Hcalls1. by rewrite <- app_assoc.
Qed.

Lemma type_from_ok (i : nat) (string : text) s :
  _dead_key s = None ->
  Forall (fun c => accepted (from_char (Some [c]))) string ->
  exists s', type_from i (characters string) s = (Ok tt, s')
             /\ handled s' = handled s ++ keystrokes string
             /\ _dead_key s' = None.
Proof.
  intros Hnone Hall. revert i s Hnone.
  induction Hall as [|c string Hc Hall IH]; intros i s Hnone.
  - exists s. split; [done|]. split; [|done]. by rewrite app_nil_r.
  - simpl. rewrite bind_run. unfold try_except.
    destruct (keystroke_ok c s Hnone Hc) as (s1 & -> & Hcalls1 & Hnone1).
    destruct (IH (S i) s1 Hnone1) as (s2 & -> & Hcalls2 & Hnone2).
    exists s2. split; [done|]. split; [|done].
    rewrite Hcalls2, Hcalls1. by rewrite <- app_assoc.
Qed.

Lemma type_from_app (i : nat) (l1 l2 : list text) s :
  type_from i (l1 ++ l2) s =
    match type_from i l1 s with
    | (Ok _, s1) => type_from (i + length l1) l2 s1
    | (Err e, s1) => (Err e, s1)
    end.
Proof.
  revert i s. induction l1 as [|x l1 IH]; intros i s; simpl.
  - by rewrite Nat.add_0_r.
  - rewrite !bind_run. destruct (try_except _ _ _ s) as [[[]|e] s1]; [|done].
    rewrite IH. by rewrite Nat.add_succ_r.
Qed.

(** [type] returns exactly when pressing and releasing each character in
    turn returns, and leaves the same state. *)
Lemma type_from_returns (i : nat) (l : list text) s s' :
  type_from i l s = (Ok tt, s') <->
  for_each l (fun character => press (VStr character) ;; release (VStr character)) s
  = (Ok tt, s').
Proof.
  revert i s. induction l as [|x l IH]; intros i s; [done|].
  cbn [type_from for_each].
  set (keystroke := press (VStr x) ;; release (VStr x)).
  rewrite !bind_run. unfold try_except.
  destruct (keystroke s) as [[[]|e] s1].
  - apply IH.
  - destruct (issubclass (exn_cls e) ValueError); by split.
Qed.

Lemma type_fails (pre : text) (c : N) (post : text) s s1 s2 e :
  type pre s = (Ok tt, s1) ->
  (press (VStr [c]) ;; release (VStr [c])) s1 = (Err e, s2) ->
  issubclass (exn_cls e) ValueError = true ->
  type (pre ++ c :: post) s =
    (Err (Exn InvalidCharacterException [VInt (Z.of_nat (length pre)); VStr [c]]), s2).
Proof.
  intros Hpre Hkey Hcls. unfold type, characters in *.
  rewrite fmap_app, type_from_app, Hpre. simpl.
  rewrite bind_run. unfold try_except. rewrite Hkey.
  rewrite Hcls. by rewrite length_fmap.
Qed.

(** C5. [type] presses and releases each character in turn: it returns
    exactly when that sequence of calls does, with the same state, and
    with no dead key pending on a platform that takes each character
    [_handle] receives the press and the release of each character in
    order.  When the press or release of a character raises [ValueError],
    [type] raises [InvalidCharacterException] with the index and the
    character; the state it leaves is the one the failing call left: what
    was handled before stays, and nothing is handled for the characters
    after. *)
Theorem type_presses_and_releases (string : text) (s : State) :
  (forall s',
     type string s = (Ok tt, s') <->
     for_each (characters string)
       (fun character => press (VStr character) ;; release (VStr character)) s
     = (Ok tt, s'))
  /\ (_dead_key s = None ->
      Forall (fun c => accepted (from_char (Some [c]))) string ->
      exists s', type string s = (Ok tt, s')
                 /\ handled s' = handled s ++ keystrokes string)
  /\ (forall pre c post s1 s2 e,
        string = pre ++ c :: post ->
        type pre s = (Ok tt, s1) ->
        (press (VStr [c]) ;; release (VStr [c])) s1 = (Err e, s2) ->
        exn_cls e = ValueError ->
        type string s =
          (Err (Exn InvalidCharacterException
                  [VInt (Z.of_nat (length pre)); VStr [c]]), s2)).
Proof.
  split; [intros s'; apply type_from_returns|]. split.
  - intros Hnone Hall.
    destruct (type_from_ok 0 string s Hnone Hall) as (s' & Hrun & Hcalls & _).
    by exists s'.
  - intros pre c post s1 s2 e -> Hpre Hkey Hcls.
    eapply type_fails; [done|done|]. by apply issubclass_of_class.
Qed.
End ControllerProps.

(** ** The keyboard controller on the example platform *)

Section ControllerOnExample.
#[local] Existing Instance Example.stdlib.
#[local] Existing Instance Example.platform.
Import Controller.

Lemma Example_normalize_keeps : NFC_keeps_text.
Proof.
  intros t Hne. simpl. destruct t as [|c [|mark rest]]; [done|done|].
  simpl. by destruct (Example.compose c mark).
Qed.

Lemma Example_accepts (key : KeyCode) : Example.has_key key = true -> accepted key.
Proof. intros Hkey is_press p. simpl. by rewrite Hkey. Qed.

Lemma Example_dead_tilde_valid : KeyCode_valid Example.dead_tilde.
Proof. unfold KeyCode_valid. simpl. by eexists _, _. Qed.

(** C1 on the code: the keys of [pressed] are pressed on entry and, on
    the way out, pressed again in reverse order; none is released,
    whether the block returns or raises. *)
Theorem pressed_presses_again :
  let a := from_char (Some (txt "a")) in
  let b := from_char (Some (txt "b")) in
  let keys := [VStr (txt "a"); VStr (txt "b")] in
  let boom := Exn (OtherError "RuntimeError") [] in
  (pressed keys (mret tt) Example.controller).1 = Ok tt
  /\ handled (pressed keys (mret tt) Example.controller).2
     = [(a, true); (b, true); (b, true); (a, true)]
  /\ (pressed (A := unit) keys (mthrow boom) Example.controller).1 = Err boom
  /\ handled (pressed (A := unit) keys (mthrow boom) Example.controller).2
     = [(a, true); (b, true); (b, true); (a, true)].
Proof. vm_compute. done. Qed.

Lemma dispatch_dead_key_witness :
  let pending := with_dead_key (Some Example.dead_tilde) Example.controller in
  let a_tilde := from_char (Some [0xE3%N]) in
  (exists s', _dispatch (Some (from_char (Some (txt "a")))) true pending = (Ok tt, s')
              /\ handled s' = handled pending ++ [(a_tilde, true)]
              /\ _dead_key s' = None)
  /\ (exists s', _dispatch (Some (from_vk 65)) true pending = (Ok tt, s')
                 /\ handled s' = handled pending
                      ++ [(Example.dead_tilde, true); (Example.dead_tilde, false);
                          (from_vk 65, true)]
                 /\ _dead_key s' = None)
  /\ (exists joined,
        join Example.dead_tilde Example.dead_circumflex = Ok joined
        /\ is_dead joined = false
        /\ handled (_dispatch (Some Example.dead_circumflex) true pending).2
           = handled pending ++ [(joined, true)]
        /\ _dead_key (_dispatch (Some Example.dead_circumflex) true pending).2 = None)
  /\ (let marked := mkKeyCode (Some 65%Z) None true None None in
      exists s', _dispatch (Some marked) true pending = (Ok tt, s')
                 /\ handled s' = handled pending
                      ++ [(Example.dead_tilde, true); (Example.dead_tilde, false)]
                 /\ _dead_key s' = Some marked)
  /\ (exists s', _dispatch (Some Example.dead_tilde) true Example.controller = (Ok tt, s')
                 /\ _dead_key s' = Some Example.dead_tilde
                 /\ handled s' = handled Example.controller
                 /\ platform s' = platform Example.controller)
  /\ (exists s', _dispatch (Some Example.dead_tilde) false pending = (Ok tt, s')
                 /\ handled s' = handled pending /\ platform s' = platform pending
                 /\ _dead_key s' = _dead_key pending).
Proof.
  intros pending a_tilde. split; [|split; [|split; [|split; [|split]]]].
  - assert (Hjoin : join Example.dead_tilde (from_char (Some (txt "a"))) = Ok a_tilde)
      by (vm_compute; reflexivity).
    apply (proj1 (dispatch_dead_key pending Example.dead_tilde
                    (from_char (Some (txt "a")))) eq_refl a_tilde Hjoin).
    by apply Example_accepts.
  - apply (proj1 (proj2 (dispatch_dead_key pending Example.dead_tilde (from_vk 65)))
             eq_refl Example_normalize_keeps Example_dead_tilde_valid eq_refl).
    + reflexivity.
    + reflexivity.
    + by apply Example_accepts.
    + by apply Example_accepts.
  - apply (proj1 (proj2 (proj2 (dispatch_dead_key pending Example.dead_tilde
                                  Example.dead_circumflex)))
             eq_refl eq_refl Example_normalize_keeps Example_dead_tilde_valid eq_refl).
    unfold KeyCode_valid. simpl. by eexists _, _.
  - intros marked.
    apply (proj1 (proj2 (proj2 (proj2 (dispatch_dead_key pending Example.dead_tilde
                                         marked))))
             eq_refl eq_refl).
    + reflexivity.
    + by apply Example_accepts.
  - apply (proj1 (proj2 (proj2 (proj2 (proj2 (dispatch_dead_key Example.controller
                                  Example.dead_tilde Example.dead_tilde)))))
             eq_refl eq_refl).
  - apply (proj2 (proj2 (proj2 (proj2 (proj2 (dispatch_dead_key pending
                                  Example.dead_tilde Example.dead_tilde)))))
             eq_refl).
Defined.

(** C3, as stated, fails: the claim has a dead key pressed while another
    is pending kept, and [_handle] not called.  With the dead tilde
    pending and the dead circumflex pressed, the two are joined, the key
    of the circumflex with the combining tilde goes to [_handle], and no
    dead key is left pending. *)
Lemma dead_key_on_pending_is_joined :
  let pending := with_dead_key (Some Example.dead_tilde) Example.controller in
  let joined := from_char (Some [94%N; 0x303%N]) in
  join Example.dead_tilde Example.dead_circumflex = Ok joined
  /\ handled (_dispatch (Some Example.dead_circumflex) true pending).2 = [(joined, true)]
  /\ _dead_key (_dispatch (Some Example.dead_circumflex) true pending).2 = None
  /\ _dead_key (_dispatch (Some Example.dead_circumflex) true pending).2
     <> Some Example.dead_circumflex
  /\ handled (_dispatch (Some Example.dead_circumflex) true pending).2
     <> handled pending.
Proof. vm_compute. repeat split; discriminate. Qed.

Lemma release_absent_modifier_witness :
  let shift_left := as_value_of shift_l (from_vk 0xffe1) in
  raises (set_remove shift (_modifiers Example.controller)) KeyError
  /\ _dispatch (Some shift_left) false Example.controller
     = _handle shift_left false Example.controller
  /\ _modifiers (_dispatch (Some shift_left) false Example.controller).2
     = _modifiers Example.controller
  /\ handled (_dispatch (Some shift_left) false Example.controller).2
     = handled Example.controller ++ [(shift_left, false)].
Proof.
  intros shift_left.
  apply (release_absent_modifier Example.controller shift_left shift).
  - reflexivity.
  - apply not_elem_of_empty.
  - reflexivity.
Defined.

Lemma type_presses_and_releases_witness :
  let euro := 0x20AC%N in
  let typed_H := (type [72%N] Example.controller).2 in
  let failed := ((press (VStr [euro]) ;; release (VStr [euro])) typed_H).2 in
  for_each (characters (txt "Hi"))
    (fun character => press (VStr character) ;; release (VStr character))
    Example.controller
  = (Ok tt, (type (txt "Hi") Example.controller).2)
  /\ (exists s', type (txt "Hi") Example.controller = (Ok tt, s')
                 /\ handled s' = handled Example.controller ++ keystrokes (txt "Hi"))
  /\ type [72%N; euro; 105%N] Example.controller
     = (Err (Exn InvalidCharacterException [VInt 1; VStr [euro]]), failed)
  /\ handled failed
     = keystrokes [72%N] ++ [(from_char (Some [euro]), true)].
Proof.
  intros euro typed_H failed. split; [|split; [|split]].
  - apply (proj1 (proj1 (type_presses_and_releases (txt "Hi") Example.controller)
                    (type (txt "Hi") Example.controller).2)).
    reflexivity.
  - apply (proj1 (proj2 (type_presses_and_releases (txt "Hi") Example.controller))
             eq_refl).
    repeat constructor.
  - apply (proj2 (proj2 (type_presses_and_releases [72%N; euro; 105%N]
                           Example.controller))
             [72%N] euro [105%N] typed_H failed
             (Exn ValueError [VKeyCode (from_char (Some [euro]))])).
    + reflexivity.
    + reflexivity.
    + reflexivity.
    + reflexivity.
  - reflexivity.
Defined.
End ControllerOnExample.

(** ** Hot keys: [parse] *)

Section ParseSegments.
Import HotKey.

Lemma drop_empty_iff (l : text) (n : nat) : drop n l = [] <-> (length l <= n)%nat.
Proof. split; [apply drop_nil_inv | apply drop_ge]. Qed.

Lemma slice_prefix (pre rest : text) (start : nat) :
  (start <= length pre)%nat ->
  slice (pre ++ rest) start (length pre) = drop start pre.
Proof.
  intros Hle. unfold slice. rewrite drop_app_le by done.
  rewrite take_app_length' by (rewrite length_drop; lia). done.
Qed.

(** The loop of [parts] cuts as [cut] does, and its last [start] is an
    index of [keys]. *)
Lemma parts_loop_cut (rest pre : text) (start : nat) :
  (start <= length pre)%nat ->
  let r := parts_loop (pre ++ rest) (length pre) start rest in
  r.1 ++ [drop r.2 (pre ++ rest)] = cut (drop start pre) rest
  /\ (r.2 <= length (pre ++ rest))%nat.
Proof.
  revert pre start. induction rest as [|c rest IH]; intros pre start Hle; simpl.
  - rewrite app_nil_r. split; [done | lia].
  - assert (Hempty : bool_decide (length pre = start) = bool_decide (drop start pre = [])).
    { apply bool_decide_ext. rewrite drop_empty_iff. lia. }
    rewrite Hempty.
    assert (Hkeys : pre ++ c :: rest = (pre ++ [c]) ++ rest) by by rewrite <- app_assoc.
    assert (Hlen : S (length pre) = length (pre ++ [c])) by (rewrite length_app; simpl; lia).
    destruct (bool_decide (c = plus_sign) && negb (bool_decide (drop start pre = []))).
    + specialize (IH (pre ++ [c]) (length (pre ++ [c])) (le_n _)).
      rewrite drop_all in IH. rewrite Hkeys, Hlen.
      destruct (parts_loop ((pre ++ [c]) ++ rest) (length (pre ++ [c]))
                  (length (pre ++ [c])) rest) as [yielded start'].
      simpl in *. destruct IH as [IH1 IH2]. split; [|done].
      rewrite <- IH1. f_equal. rewrite <- Hkeys. by apply slice_prefix.
    + assert (Hle' : (start <= length (pre ++ [c]))%nat) by lia.
      specialize (IH (pre ++ [c]) start Hle').
      rewrite drop_app_le in IH by done. by rewrite Hkeys, Hlen.
Qed.

Lemma segments_cut (keys : text) : segments keys = cut [] keys.
Proof.
  unfold segments. pose proof (parts_loop_cut keys [] 0 (le_n _)) as [Hcut _].
  simpl in Hcut. by destruct (parts_loop keys 0 0 keys).
Qed.

Lemma cut_nonempty (current rest : text) : cut current rest <> [].
Proof.
  revert current. induction rest as [|c rest IH]; intros current; simpl; [done|].
  destruct (_ && _); [done | apply IH].
Qed.

(** [parts] raises exactly when the last segment is empty. *)
Lemma parts_segments (keys : text) :
  parts keys = if bool_decide (last (segments keys) = Some [])
               then Err (Exn ValueError [VStr keys])
               else Ok (segments keys).
Proof.
  unfold parts, segments.
  pose proof (parts_loop_cut keys [] 0 (le_n _)) as [_ Hle]. simpl in Hle.
  destruct (parts_loop keys 0 0 keys) as [yielded start]. simpl in Hle.
  rewrite last_snoc.
  apply (f_equal (fun b : bool => if b then _ else _)).
  apply bool_decide_ext. split.
  - intros ->. by rewrite drop_all.
  - intros [= Hnil]. apply drop_empty_iff in Hnil. lia.
Qed.
End ParseSegments.

Section ParseCut.
Import HotKey.





End ParseCut.

Section ParseProps.
Context `{StdLib} `{Backend}.
Import HotKey.









Lemma size_list_to_set_le `{Countable A} (l : list A) :
  (size (list_to_set (C := gset A) l) <= length l)%nat.
Proof.
  induction l as [|x l IH]; [by rewrite list_to_set_nil, size_empty|].
  rewrite list_to_set_cons, size_union_alt, size_singleton. simpl.
  assert (size (list_to_set (C := gset A) l ∖ {[x]}) <= size (list_to_set (C := gset A) l))%nat
    by (apply subseteq_size; set_solver).
  lia.
Qed.

Lemma size_list_to_set_NoDup `{Countable A} (l : list A) :
  length l = size (list_to_set (C := gset A) l) -> NoDup l.
Proof.
  induction l as [|x l IH]; intros Hsize; [constructor|].
  rewrite list_to_set_cons in Hsize. simpl in Hsize.
  pose proof (size_list_to_set_le l) as Hle.
  destruct (decide (x ∈ l)) as [Hin|Hout].
  - assert ({[x]} ∪ list_to_set l = list_to_set (C := gset A) l) as Heq by set_solver.
    rewrite Heq in Hsize. lia.
  - rewrite size_union, size_singleton in Hsize by set_solver.
    constructor; [done|]. apply IH. lia.
Qed.

(** The objects of a list of parts: one for each part, a named key as
    often as it is among the parts, and every key code once. *)
Lemma length_objects (i : nat) (l : list part) : length (objects i l) = length l.
Proof.
  revert i. induction l as [|[key|code] l IH]; intros i; simpl; by rewrite ?IH.
Qed.

Lemma objects_inl (i : nat) (l : list part) (key : Key) :
  inl key ∈ objects i l <-> key ∈ named_parts l.
Proof.
  revert i. induction l as [|[key'|code] l IH]; intros i; simpl.
  - by rewrite !elem_of_nil.
  - rewrite !elem_of_cons, IH. split; intros [Heq|Hin]; auto; left; congruence.
  - rewrite elem_of_cons, IH. split; [intros [Heq|Hin]; [done|done] | by right].
Qed.

Lemma objects_inr (i j : nat) (l : list part) :
  inr j ∈ objects i l -> (i <= j)%nat.
Proof.
  revert i. induction l as [|[key|code] l IH]; intros i; simpl.
  - by rewrite elem_of_nil.
  - rewrite elem_of_cons. intros [Heq|Hin]; [done|]. apply IH in Hin. lia.
  - rewrite elem_of_cons. intros [Heq|Hin]; [injection Heq; lia|].
    apply IH in Hin. lia.
Qed.

Lemma NoDup_objects (i : nat) (l : list part) :
  NoDup (objects i l) <-> NoDup (named_parts l).
Proof.
  revert i. induction l as [|[key|code] l IH]; intros i; simpl.
  - split; constructor.
  - rewrite !NoDup_cons, objects_inl, IH. done.
  - rewrite NoDup_cons, IH. split; [by intros [_ ?]|]. intros Hnodup.
    split; [|done]. intros Hin. apply objects_inr in Hin. lia.
Qed.

(** The test of [parse] on its parts: it finds a named key that is there
    twice, and nothing else. *)
Lemma parse_check (l : list part) :
  length l = size (list_to_set (C := gset (Key + nat)) (objects 0 l))
  <-> NoDup (named_parts l).
Proof.
  rewrite <- (NoDup_objects 0). split.
  - intros Hsize. apply size_list_to_set_NoDup. by rewrite length_objects.
  - intros Hnodup. by rewrite size_list_to_set, length_objects.
Qed.


End ParseProps.

Section NormalModifiers.
Context `{Backend}.
Import HotKey.

(** The entries one combination adds to the dictionary. *)
Lemma add_combination_in (d : gmap (option KeyCode) Key) (base : Key)
    (values : list (option KeyCode)) (value : option KeyCode) :
  value ∈ values ->
  foldl (fun d value => <[value := base]> d) d values !! value = Some base.
Proof.
  revert d. induction values as [|v values IH] using rev_ind; intros d Hin.
  - by apply elem_of_nil in Hin.
  - rewrite foldl_app. simpl. destruct (decide (v = value)) as [->|Hne].
    + by rewrite lookup_insert_eq.
    + rewrite lookup_insert_ne by done. apply IH. set_solver.
Qed.

Lemma add_combination_out (d : gmap (option KeyCode) Key) (base : Key)
    (values : list (option KeyCode)) (value : option KeyCode) :
  value ∉ values ->
  foldl (fun d value => <[value := base]> d) d values !! value = d !! value.
Proof.
  revert d. induction values as [|v values IH] using rev_ind; intros d Hout; [done|].
  rewrite foldl_app. simpl. rewrite lookup_insert_ne by set_solver.
  apply IH. set_solver.
Qed.

Lemma normal_modifiers_lookup (combinations : list (Key * list (option KeyCode)))
    (i : nat) (combination : Key * list (option KeyCode)) (value : option KeyCode) :
  combinations !! i = Some combination ->
  value ∈ combination.2 ->
  (forall j c, (i < j)%nat -> combinations !! j = Some c -> value ∉ c.2) ->
  foldl (fun d combination =>
           foldl (fun d value => <[value := combination.1]> d) d combination.2)
        (∅ : gmap (option KeyCode) Key) combinations !! value = Some combination.1.
Proof.
  revert i combination.
  induction combinations as [|c combinations IH] using rev_ind;
    intros i combination Hi Hin Hlater; [done|].
  rewrite foldl_app. simpl.
  destruct (decide (i = length combinations)) as [->|Hne].
  - rewrite list_lookup_middle in Hi by done. injection Hi as ->.
    by apply add_combination_in.
  - assert (Hlt : (i < length combinations)%nat).
    { apply lookup_lt_Some in Hi. rewrite length_app in Hi. simpl in Hi. lia. }
    rewrite lookup_app_l in Hi by done.
    rewrite add_combination_out.
    + apply (IH i); [done|done|].
      intros j c' Hij Hj. apply (Hlater j); [done|].
      rewrite lookup_app_l; [done | by eapply lookup_lt_Some].
    + apply (Hlater (length combinations)); [done|].
      by rewrite list_lookup_middle.
Qed.


End NormalModifiers.

Section ParseTheorem.
Context `{StdLib} `{Backend}.
Import HotKey.



End ParseTheorem.

Section ParseOnExample.
#[local] Existing Instance Example.stdlib.
#[local] Existing Instance Example.platform.
Import HotKey.

Lemma Example_keys_have_codes : keys_have_codes.
Proof. intros k. by eexists _, _. Qed.


End ParseOnExample.

(** ** The keyboard controller: modifiers, caps lock and the dead key *)

Section ControllerState.
Context `{StdLib} `{Backend}.
Import Controller.
Implicit Types (s : State) (key d : KeyCode) (okey : option KeyCode).

Ltac msimpl :=
  repeat (rewrite ?bind_run;
          unfold lift, get, put, set_dead_key, set_caps_lock, set_modifiers,
                 attr_of, mret, M_ret, mthrow, M_throw;
          simpl).

Lemma preserves_ret {A B} (f : State -> A) (b : B) : preserves f (mret b).
Proof. by intros s. Qed.

Lemma preserves_lift {A B} (f : State -> A) (r : result B) : preserves f (lift r).
Proof. by intros s. Qed.

Lemma preserves_bind {A B C} (f : State -> A) (m : M B) (k : B -> M C) :
  preserves f m -> (forall b, preserves f (k b)) -> preserves f (m ≫= k).
Proof.
  intros Hm Hk s. rewrite bind_run. specialize (Hm s).
  destruct (m s) as [[b|e] s1]; simpl in *; [|done].
  by rewrite Hk.
Qed.

Lemma preserves_try_except {A B} (f : State -> A) (m : M B) cls (h : exn -> M B) :
  preserves f m -> (forall e, preserves f (h e)) -> preserves f (try_except m cls h).
Proof.
  intros Hm Hh s. unfold try_except. specialize (Hm s).
  destruct (m s) as [[b|e] s1]; simpl in *; [done|].
  destruct (issubclass (exn_cls e) cls); simpl; [|done]. by rewrite Hh.
Qed.

Lemma preserves_handle {A} (f : State -> A) key is_press :
  (forall p s, f (with_call key is_press p s) = f s) ->
  preserves f (_handle key is_press).
Proof.
  intros Hf s. unfold _handle. destruct (platform_handle _ _ _) as [r p]. apply Hf.
Qed.

(** After the first block of [_dispatch], no step touches the modifiers;
    after the second, none touches the caps lock. *)
Lemma join_dead_key_preserves {A} (f : State -> A) okey :
  (forall key is_press p s, f (with_call key is_press p s) = f s) ->
  (forall k s, f (with_dead_key k s) = f s) ->
  preserves f (join_dead_key okey).
Proof.
  intros Hcall Hdead s. unfold join_dead_key. rewrite bind_run. simpl.
  destruct (_dead_key s) as [d|]; [|done].
  revert s. apply preserves_bind.
  - apply preserves_try_except.
    + apply preserves_bind; [apply preserves_lift|]. intros k.
      apply preserves_bind; [apply preserves_lift|]. intros j. apply preserves_ret.
    + intros e. apply preserves_bind; [by apply preserves_handle|]. intros [].
      apply preserves_bind; [by apply preserves_handle|]. intros [].
      apply preserves_ret.
  - intros k'. apply preserves_bind; [|intros []; apply preserves_ret].
    intros s. apply Hdead.
Qed.

Lemma dispatch_tail_preserves {A} (f : State -> A) okey (is_press : bool) :
  (forall key is_press p s, f (with_call key is_press p s) = f s) ->
  (forall k s, f (with_dead_key k s) = f s) ->
  preserves f (lift (attr_of okey "is_dead") ≫= fun k : KeyCode =>
               if is_dead k then (if is_press then set_dead_key (Some k) else mret tt)
               else _handle k is_press).
Proof.
  intros Hcall Hdead. apply preserves_bind; [apply preserves_lift|]. intros k.
  destruct (is_dead k); [|by apply preserves_handle].
  destruct is_press; [|apply preserves_ret]. intros s. apply Hdead.
Qed.

Lemma update_modifiers_exact okey (is_press : bool) s :
  update_modifiers okey is_press s =
    (Ok tt, with_modifiers
              (match _as_modifier okey with
               | Some modifier =>
                   if is_press then {[modifier]} ∪ _modifiers s
                   else _modifiers s ∖ {[modifier]}
               | None => _modifiers s
               end) s).
Proof.
  unfold update_modifiers. destruct (_as_modifier okey) as [modifier|].
  - msimpl. destruct is_press; [done|].
    unfold try_except. msimpl. unfold set_remove.
    case_bool_decide as Hin; simpl; [done|].
    assert (_modifiers s ∖ {[modifier]} = _modifiers s) as -> by set_solver.
    by destruct s.
  - by destruct s.
Qed.

Lemma update_caps_lock_exact okey s :
  update_caps_lock okey s =
    (Ok tt, with_caps_lock
              (if bool_decide (okey = Key_value caps_lock)
               then negb (_caps_lock s) else _caps_lock s) s).
Proof.
  unfold update_caps_lock. case_bool_decide; [done|]. by destruct s.
Qed.

Lemma dispatch_unfold okey (is_press : bool) s :
  _dispatch okey is_press s =
    ((if is_press then
        update_caps_lock okey ;;
        joined ← join_dead_key okey;
        lift (attr_of joined "is_dead") ≫= fun k : KeyCode =>
        if is_dead k then (if true then set_dead_key (Some k) else mret tt)
        else _handle k true
      else
        lift (attr_of okey "is_dead") ≫= fun k : KeyCode =>
        if is_dead k then (if false then set_dead_key (Some k) else mret tt)
        else _handle k false)
       (update_modifiers okey is_press s).2).
Proof.
  unfold _dispatch. rewrite bind_run, update_modifiers_exact. by destruct is_press.
Qed.

Lemma dispatch_modifiers_exact okey (is_press : bool) s :
  _modifiers (_dispatch okey is_press s).2 =
    match _as_modifier okey with
    | Some modifier =>
        if is_press then {[modifier]} ∪ _modifiers s
        else _modifiers s ∖ {[modifier]}
    | None => _modifiers s
    end.
Proof.
  rewrite dispatch_unfold, update_modifiers_exact. simpl.
  set (s1 := with_modifiers _ s).
  change (match _as_modifier okey with
          | Some modifier =>
              if is_press then {[modifier]} ∪ _modifiers s
              else _modifiers s ∖ {[modifier]}
          | None => _modifiers s
          end) with (_modifiers s1).
  generalize s1. clear s1. destruct is_press.
  - apply preserves_bind; [intros s1; by rewrite update_caps_lock_exact|]. intros [].
    apply preserves_bind; [by apply join_dead_key_preserves|]. intros joined.
    by apply (dispatch_tail_preserves _modifiers joined true).
  - by apply (dispatch_tail_preserves _modifiers okey false).
Qed.

(** X1. Whatever else happens in it, a dispatch leaves the modifier set
    changed by the key's own base modifier alone: added on a press, taken
    out on a release, and untouched by a key that is no modifier. *)
Theorem dispatch_modifiers okey (is_press : bool) s :
  _modifiers (_dispatch okey is_press s).2 =
    match _as_modifier okey with
    | Some modifier =>
        if is_press then {[modifier]} ∪ _modifiers s
        else _modifiers s ∖ {[modifier]}
    | None => _modifiers s
    end.
Proof. apply dispatch_modifiers_exact. Qed.

(** X2. A dispatch changes the caps lock exactly on the press of the caps
    lock key, which toggles it, whatever else happens in that dispatch. *)
Theorem dispatch_caps_lock okey (is_press : bool) s :
  _caps_lock (_dispatch okey is_press s).2 =
    (if is_press && bool_decide (okey = Key_value caps_lock)
     then negb (_caps_lock s) else _caps_lock s).
Proof.
  rewrite dispatch_unfold, update_modifiers_exact. simpl.
  set (s1 := with_modifiers _ s).
  change (_caps_lock s) with (_caps_lock s1).
  generalize s1. clear s1. intros s1. destruct is_press; simpl.
  - rewrite bind_run, update_caps_lock_exact.
    set (s2 := with_caps_lock _ s1).
    change (if bool_decide (okey = Key_value caps_lock)
            then negb (_caps_lock s1) else _caps_lock s1) with (_caps_lock s2).
    generalize s2. clear s2.
    apply preserves_bind; [by apply join_dead_key_preserves|]. intros joined.
    by apply (dispatch_tail_preserves _caps_lock joined true).
  - revert s1. by apply (dispatch_tail_preserves _caps_lock okey false).
Qed.

Lemma _handle_run key (is_press : bool) s :
  _handle key is_press s =
    ((platform_handle key is_press (platform s)).1,
     with_call key is_press (platform_handle key is_press (platform s)).2 s).
Proof. unfold _handle. by destruct (platform_handle _ _ _). Qed.

Ltac mrun := repeat (msimpl; rewrite ?_handle_run).

(** What a dispatch leaves behind, whether it returns or raises: the calls
    of [_handle] it has added, and the dead key it keeps. *)
Lemma dispatch_outcome okey (is_press : bool) s :
  let s' := (_dispatch okey is_press s).2 in
  (exists new,
      handled s' = handled s ++ new
      /\ (length new <= if is_press then 3 else 1)%nat
      /\ (forall k q, (k, q) ∈ new -> is_dead k = true -> _dead_key s = Some k))
  /\ (_dead_key s' = _dead_key s \/ _dead_key s' = None
      \/ exists k, _dead_key s' = Some k /\ is_dead k = true).
Proof.
  assert (Hnone : forall l : list (KeyCode * bool), l = handled s -> exists new,
             l = handled s ++ new
             /\ (length new <= if is_press then 3 else 1)%nat
             /\ (forall k q, (k, q) ∈ new -> is_dead k = true -> _dead_key s = Some k)).
  { intros l Hl. exists []. rewrite app_nil_r. split; [done|].
    split; [destruct is_press; simpl; lia|]. intros k q Hin. by apply elem_of_nil in Hin. }
  assert (Hone : forall (l : list (KeyCode * bool)) k q,
             l = handled s ++ [(k, q)] -> q = is_press -> is_dead k = false ->
             exists new,
               l = handled s ++ new
               /\ (length new <= if is_press then 3 else 1)%nat
               /\ (forall k q, (k, q) ∈ new -> is_dead k = true -> _dead_key s = Some k)).
  { intros l k q Hl Hq Hk. exists [(k, q)]. split; [done|].
    split; [destruct is_press; simpl; lia|].
    intros k' q' Hin%list_elem_of_singleton Hdead. injection Hin as -> ->. congruence. }
  unfold _dispatch. rewrite bind_run, update_modifiers_exact.
  destruct is_press.
  - rewrite bind_run, update_caps_lock_exact. unfold join_dead_key. mrun.
    destruct (_dead_key s) as [d|] eqn:Hd.
    + unfold try_except. destruct okey as [key|]; mrun;
        [|split; [by apply Hnone | by left]].
      destruct (join d key) as [joined|e] eqn:Hjoin; mrun.
      * rewrite (join_not_dead _ _ _ Hjoin). mrun.
        split; [|by right; left].
        apply (Hone _ joined true); [done|done|]. by apply (join_not_dead d key).
      * destruct (issubclass (exn_cls e) ValueError); mrun;
          [|split; [by apply Hnone | by left]].
        destruct (platform_handle d true (platform s)) as [[[]|e1] p1]; mrun.
        -- destruct (platform_handle d false p1) as [[[]|e2] p2]; mrun.
           ++ destruct (is_dead key) eqn:Hkey; mrun.
              ** split; [|right; right; by exists key].
                 exists [(d, true); (d, false)]. rewrite <- app_assoc.
                 split; [done|]. split; [simpl; lia|].
                 intros k q Hin _. set_solver.
              ** split; [|by right; left].
                 exists [(d, true); (d, false); (key, true)]. rewrite <- !app_assoc.
                 split; [done|]. split; [simpl; lia|].
                 intros k q Hin Hdead.
                 apply elem_of_cons in Hin as [[= -> ->]|Hin]; [done|].
                 apply elem_of_cons in Hin as [[= -> ->]|Hin]; [done|].
                 apply list_elem_of_singleton in Hin. injection Hin as -> ->. congruence.
           ++ split; [|by left].
              exists [(d, true); (d, false)]. rewrite <- app_assoc.
              split; [done|]. split; [simpl; lia|].
              intros k q Hin _. set_solver.
        -- split; [|by left].
           exists [(d, true)]. split; [done|]. split; [simpl; lia|].
           intros k q Hin%list_elem_of_singleton _. by injection Hin as -> ->.
    + destruct okey as [key|]; mrun; [|split; [by apply Hnone | by left]].
      destruct (is_dead key) eqn:Hkey; mrun.
      * split; [by apply Hnone | right; right; by exists key].
      * split; [|by left]. by apply (Hone _ key true).
  - destruct okey as [key|]; mrun; [|split; [by apply Hnone | by left]].
    destruct (is_dead key) eqn:Hkey; mrun; [split; [by apply Hnone | by left]|].
    split; [|by left]. by apply (Hone _ key false).
Qed.

(** [_resolve] leaves the controller as it is. *)
Lemma resolve_state (key : pyval) s : (_resolve key s).2 = s.
Proof.
  destruct key; simpl; try done.
  - by case_bool_decide.
  - msimpl. destruct (char k); [|done]. by destruct (shift_pressed s).
Qed.

Lemma touch_run (key : pyval) (is_press : bool) s :
  touch key is_press s =
    match (_resolve key s).1 with
    | Ok okey => _dispatch okey is_press s
    | Err e => (Err e, s)
    end.
Proof.
  pose proof (resolve_state key s) as Hs.
  unfold touch, press, release. destruct is_press; rewrite bind_run;
    destruct (_resolve key s) as [[okey|e] s1]; simpl in *; by subst.
Qed.

(** X3. A dispatch calls [_handle] at most three times on a press and at
    most once on a release, and a dead key reaches [_handle] only as the
    dead key that was pending. *)
Theorem dispatch_calls okey (is_press : bool) s :
  exists new,
    handled (_dispatch okey is_press s).2 = handled s ++ new
    /\ (length new <= if is_press then 3 else 1)%nat
    /\ (forall k q, (k, q) ∈ new -> is_dead k = true -> _dead_key s = Some k).
Proof.
  destruct (dispatch_outcome okey is_press s) as [Hcalls _]. exact Hcalls.
Qed.

Lemma touch_dead_key (key : pyval) (is_press : bool) s :
  dead_key_is_dead s -> dead_key_is_dead (touch key is_press s).2.
Proof.
  intros Hs. rewrite touch_run. destruct (_resolve key s).1 as [okey|e]; [|done].
  destruct (dispatch_outcome okey is_press s) as [_ [Hsame|[Hnone|(k & Hk & Hdead)]]];
    intros d Hd.
  - apply Hs. by rewrite <- Hsame.
  - by rewrite Hnone in Hd.
  - rewrite Hk in Hd. by injection Hd as <-.
Qed.

Lemma as_modifier_base okey (modifier : Key) :
  _as_modifier okey = Some modifier -> modifier ∈ base_modifiers.
Proof.
  unfold _as_modifier, _MODIFIER_KEYS, base_modifiers. simpl.
  repeat (case_bool_decide; simpl; [intros [= <-]; set_solver|]). done.
Qed.

Lemma touch_modifiers (key : pyval) (is_press : bool) s :
  _modifiers s ⊆ base_modifiers -> _modifiers (touch key is_press s).2 ⊆ base_modifiers.
Proof.
  intros Hs. rewrite touch_run. destruct (_resolve key s).1 as [okey|e]; [|done].
  rewrite dispatch_modifiers_exact.
  destruct (_as_modifier okey) as [modifier|] eqn:Hmod; [|done].
  apply as_modifier_base in Hmod. destruct is_press; set_solver.
Qed.

(** X4. Whatever is pressed and released on a fresh controller, and
    whichever calls raise: the modifier set holds base modifiers only, and
    the dead key it keeps, if any, is dead. *)
Theorem touches_invariant (calls : list (pyval * bool)) (p : platform_state) :
  _modifiers (touches calls (init p)) ⊆ base_modifiers
  /\ dead_key_is_dead (touches calls (init p)).
Proof.
  unfold touches. induction calls as [|call calls [IHm IHd]] using rev_ind.
  - split; [set_solver | done].
  - rewrite foldl_app. simpl. split; [by apply touch_modifiers | by apply touch_dead_key].
Qed.
End ControllerState.

(** ** The keyboard controller: the public methods *)

Section ControllerMethods.
Context `{StdLib} `{Backend}.
Import Controller.
Implicit Types (s : State) (key d : KeyCode) (okey : option KeyCode).

Ltac msimpl :=
  repeat (rewrite ?bind_run;
          unfold lift, get, put, set_dead_key, set_caps_lock, set_modifiers,
                 attr_of, mret, M_ret, mthrow, M_throw;
          simpl).

(** X5. Pressing a named key whose value stands for a base modifier puts
    that base modifier in the modifier set, and the property of that
    modifier reads true, whatever [_handle] does; releasing it takes the
    base modifier out. *)
Theorem press_named_modifier (k : Key) (base : Key) s :
  _as_modifier (Key_value k) = Some base ->
  base ∈ _modifiers (press (VKey k) s).2
  /\ (base ∉ _modifiers (release (VKey k) s).2)
  /\ (base = shift -> shift_pressed (press (VKey k) s).2 = true)
  /\ (base = alt -> alt_pressed (press (VKey k) s).2 = true)
  /\ (base = alt_gr -> alt_gr_pressed (press (VKey k) s).2 = true)
  /\ (base = ctrl -> ctrl_pressed (press (VKey k) s).2 = true).
Proof.
  intros Hbase.
  assert (Hpress : _modifiers (press (VKey k) s).2 = {[base]} ∪ _modifiers s).
  { change (press (VKey k) s) with (touch (VKey k) true s).
    rewrite touch_run. simpl. by rewrite dispatch_modifiers_exact, Hbase. }
  assert (Hrelease : _modifiers (release (VKey k) s).2 = _modifiers s ∖ {[base]}).
  { change (release (VKey k) s) with (touch (VKey k) false s).
    rewrite touch_run. simpl. by rewrite dispatch_modifiers_exact, Hbase. }
  split; [rewrite Hpress; set_solver|]. split; [rewrite Hrelease; set_solver|].
  unfold shift_pressed, alt_pressed, alt_gr_pressed, ctrl_pressed. rewrite Hpress.
  repeat split; intros ->.
  - destruct (_caps_lock _); [done|]. apply bool_decide_eq_true. set_solver.
  - apply bool_decide_eq_true. set_solver.
  - apply bool_decide_eq_true. set_solver.
  - apply bool_decide_eq_true. set_solver.
Qed.

Lemma find_first {A} (P : A -> bool) (l : list A) (x : A) :
  find P l = Some x <->
  exists i, l !! i = Some x /\ P x = true
            /\ forall j y, (j < i)%nat -> l !! j = Some y -> P y = false.
Proof.
  induction l as [|a l IH]; simpl.
  - split; [done|]. by intros (i & Hi & _).
  - destruct (P a) eqn:Ha.
    + split.
      * intros [= <-]. exists 0%nat. split; [done|]. split; [done|]. intros j y Hj. lia.
      * intros (i & Hi & Hx & Hbefore). destruct i as [|i]; [by injection Hi as <-|].
        specialize (Hbefore 0%nat a (Nat.lt_0_succ i) eq_refl). congruence.
    + rewrite IH. split.
      * intros (i & Hi & Hx & Hbefore). exists (S i). split; [done|]. split; [done|].
        intros [|j] y Hj Hy; [by injection Hy as <-|].
        apply (Hbefore j); [lia|done].
      * intros (i & Hi & Hx & Hbefore). destruct i as [|i]; [injection Hi as <-; congruence|].
        exists i. split; [done|]. split; [done|].
        intros j y Hj Hy. apply (Hbefore (S j)); [lia|done].
Qed.

Lemma find_none {A} (P : A -> bool) (l : list A) :
  find P l = None <-> forall y, y ∈ l -> P y = false.
Proof.
  induction l as [|a l IH]; simpl.
  - split; [|done]. intros _ y Hy. by apply elem_of_nil in Hy.
  - destruct (P a) eqn:Ha.
    + split; [done|]. intros Hall. specialize (Hall a). rewrite Ha in Hall.
      by discriminate Hall; left.
    + rewrite IH. split.
      * intros Hall y [->|Hy]%elem_of_cons; [done | by apply Hall].
      * intros Hall y Hy. apply Hall. by right.
Qed.

(** The value of a named key is among the values of the named keys [ks]
    exactly when the key is among [ks]. *)
Lemma value_among (k : Key) (ks : list Key) :
  is_Some (Key_value k) ->
  bool_decide (Key_value k ∈ Key_value <$> ks) = bool_decide (k ∈ ks).
Proof.
  intros Hsome. apply bool_decide_ext. rewrite list_elem_of_fmap. split.
  - intros (k' & Heq & Hin). apply Key_value_inj in Heq; [by subst | done].
  - intros Hin. by exists k.
Qed.

(** X6. [_as_modifier] goes by the object, not by its fields: the value
    of a named key gives the base modifier the key is listed under,
    whatever key codes the platform has made and even where two named
    keys have the same fields; and a key code made by any other call is
    no modifier, even with the fields of one. *)
Theorem as_modifier_by_identity (key : KeyCode) :
  (forall k, Key_value k = Some key -> _as_modifier (Some key) = base_of k)
  /\ (value_of key = None -> _as_modifier (Some key) = None).
Proof.
  split.
  - intros k Hk. rewrite <- Hk.
    assert (Hsome : is_Some (Key_value k)) by (by rewrite Hk).
    unfold _as_modifier.
    change _MODIFIER_KEYS with
      [ (alt_gr, Key_value <$> [alt_gr]);
        (alt, Key_value <$> [alt; alt_l; alt_r]);
        (cmd, Key_value <$> [cmd; cmd_l; cmd_r]);
        (ctrl, Key_value <$> [ctrl; ctrl_l; ctrl_r]);
        (shift, Key_value <$> [shift; shift_l; shift_r]) ].
    cbn [find fst snd]. rewrite !value_among by done.
    clear. by destruct k.
  - intros Hmade. unfold _as_modifier. rewrite fmap_None, find_none.
    intros c Hc. apply bool_decide_eq_false. intros Hin.
    unfold _MODIFIER_KEYS in Hc.
    repeat (apply elem_of_cons in Hc as [->|Hc]);
      try (by apply elem_of_nil in Hc); simpl in Hin;
      repeat (apply elem_of_cons in Hin as [Heq|Hin]);
      try (by apply elem_of_nil in Hin);
      symmetry in Heq; apply Key_value_of in Heq; congruence.
Qed.

(** X7. With shift or caps lock active, a key code with a character is
    pressed as the plain key of the upper-cased character: its dead flag
    and its virtual key code are dropped, so that a dead key pressed then
    is handled at once and not kept. *)
Theorem press_under_shift (k : KeyCode) (c : text) s :
  shift_pressed s = true -> char k = Some c -> _dead_key s = None ->
  accepted (from_char (Some (str_upper c))) ->
  exists s', press (VKeyCode k) s = (Ok tt, s')
             /\ handled s' = handled s ++ [(from_char (Some (str_upper c)), true)]
             /\ _dead_key s' = None.
Proof.
  intros Hshift Hchar Hnone Hok. unfold press. rewrite bind_run. simpl.
  rewrite bind_run. simpl. rewrite Hchar, Hshift. simpl.
  by apply dispatch_plain_press.
Qed.

Lemma for_each_app {A} (l1 l2 : list A) (body : A -> M unit) s :
  for_each (l1 ++ l2) body s =
    match for_each l1 body s with
    | (Ok _, s1) => for_each l2 body s1
    | (Err e, s1) => (Err e, s1)
    end.
Proof.
  revert s. induction l1 as [|x l1 IH]; intros s; simpl; [done|].
  rewrite !bind_run. destruct (body x s) as [[[]|e] s1]; [apply IH | done].
Qed.

(** X9. When the press or release of a character raises, [type] raises
    [InvalidCharacterException] in its place if the exception is a
    [ValueError] or of a class that derives from it, as
    [UnicodeEncodeError] does, and passes it on unchanged if it is of any
    other class; either way with the state the failing call left.  And
    typing one string after another returns exactly when typing their
    concatenation does. *)
Theorem type_other_exceptions (pre : text) (c : N) (post : text) s s1 :
  type pre s = (Ok tt, s1) ->
  (forall e s2,
     (press (VStr [c]) ;; release (VStr [c])) s1 = (Err e, s2) ->
     type (pre ++ c :: post) s =
       if issubclass (exn_cls e) ValueError
       then (Err (Exn InvalidCharacterException
                    [VInt (Z.of_nat (length pre)); VStr [c]]), s2)
       else (Err e, s2))
  /\ (forall s2, type (pre ++ post) s = (Ok tt, s2) <-> type post s1 = (Ok tt, s2)).
Proof.
  intros Hpre. split.
  - intros e s2 Hkey. unfold type, characters in *.
    rewrite fmap_app, type_from_app, Hpre. simpl.
    rewrite bind_run. unfold try_except. rewrite Hkey.
    destruct (issubclass (exn_cls e) ValueError); [|done].
    by rewrite length_fmap.
  - intros s2. unfold type, characters in *. rewrite !type_from_returns in *.
    by rewrite fmap_app, for_each_app, Hpre.
Qed.
End ControllerMethods.

Section JoinTotal.
Context `{StdLib}.

(** X10. A dead key made by [__init__], joined with any key, gives a key
    that is not dead or raises [ValueError] with that key, and nothing
    else; where NFC never empties a text it raises exactly on a key
    without a character. *)
Theorem join_of_dead_key (v : option Z) (c : option text) (d k : KeyCode) :
  KeyCode_init v c true = Ok d ->
  ((exists joined, join d k = Ok joined /\ is_dead joined = false)
   \/ join d k = Err (Exn ValueError [VKeyCode k]))
  /\ (NFC_keeps_text -> (is_Ok (join d k) = true <-> char k <> None)).
Proof.
  intros Hinit.
  pose proof (KeyCode_init_valid _ _ _ _ Hinit) as Hvalid.
  destruct (KeyCode_init_fields _ _ _ _ Hinit) as (_ & _ & Hdead).
  unfold KeyCode_valid in Hvalid. rewrite Hdead in Hvalid.
  destruct Hvalid as (c0 & mark & Hc0 & Hmark & Hne).
  split.
  - destruct (join d k) as [joined|e] eqn:Hjoin.
    + left. exists joined. split; [done|]. by apply (join_not_dead d k).
    + right. revert Hjoin. unfold join. destruct (_ || _); [done|].
      rewrite Hmark. destruct (char k); [|congruence].
      case_bool_decide; [congruence|done].
  - intros Hnfc. unfold join. destruct (_ || _) eqn:Hplain.
    + split; [|done]. intros _.
      apply orb_true_iff in Hplain as [Hsp|Hsame].
      * apply bool_decide_eq_true in Hsp. by rewrite Hsp.
      * apply andb_true_iff in Hsame as [_ Hsame].
        apply bool_decide_eq_true in Hsame. by rewrite Hsame, Hc0.
    + rewrite Hmark. destruct (char k) as [ck|]; [|done].
      rewrite bool_decide_eq_false_2; [done|].
      apply Hnfc. intros Happ. by apply app_eq_nil in Happ as [_ ?].
Qed.
End JoinTotal.

Section ControllerMethodsOnExample.
#[local] Existing Instance Example.stdlib.
#[local] Existing Instance Example.platform.
Import Controller.

Lemma dispatch_calls_witness :
  let pending := with_dead_key (Some Example.dead_tilde) Example.controller in
  exists new,
    handled (_dispatch (Some (from_vk 65)) true pending).2 = handled pending ++ new
    /\ (length new <= 3)%nat
    /\ (forall k q, (k, q) ∈ new -> is_dead k = true -> _dead_key pending = Some k).
Proof.
  intros pending. exact (dispatch_calls (Some (from_vk 65)) true pending).
Defined.

Lemma press_named_modifier_witness :
  shift ∈ _modifiers (press (VKey shift_l) Example.controller).2
  /\ (shift ∉ _modifiers (release (VKey shift_l) Example.controller).2)
  /\ shift_pressed (press (VKey shift_l) Example.controller).2 = true.
Proof.
  pose proof (press_named_modifier shift_l shift Example.controller eq_refl)
    as (Hin & Hout & Hshift & _).
  split; [exact Hin|]. split; [exact Hout|]. exact (Hshift eq_refl).
Defined.

Lemma as_modifier_by_identity_witness :
  _as_modifier (Some (as_value_of alt_l (from_vk 0xffe9))) = Some alt
  /\ _as_modifier (Some (from_vk 0xffe9)) = None.
Proof.
  split.
  - apply (proj1 (as_modifier_by_identity (as_value_of alt_l (from_vk 0xffe9))) alt_l).
    reflexivity.
  - apply (proj2 (as_modifier_by_identity (from_vk 0xffe9))). reflexivity.
Defined.

Lemma press_under_shift_witness :
  exists s', press (VKeyCode Example.dead_tilde) Example.controller_in_capitals = (Ok tt, s')
             /\ handled s' = handled Example.controller_in_capitals
                             ++ [(from_char (Some (txt "~")), true)]
             /\ _dead_key s' = None.
Proof.
  assert (Hupper : str_upper (txt "~") = txt "~") by reflexivity.
  rewrite <- Hupper.
  apply (press_under_shift Example.dead_tilde (txt "~") Example.controller_in_capitals).
  - reflexivity.
  - reflexivity.
  - reflexivity.
  - by apply Example_accepts.
Defined.

Lemma type_other_exceptions_witness :
  @type Example.stdlib Example.base_platform (txt "ab") (@init Example.base_platform tt)
  = (Err (Exn NotImplementedError []),
     (@press Example.stdlib Example.base_platform (VStr (txt "a"))
        (@init Example.base_platform tt)).2)
  /\ @type Example.stdlib Example.encoding_platform [0x20AC%N]
       (@init Example.encoding_platform tt)
     = (Err (Exn InvalidCharacterException [VInt 0; VStr [0x20AC%N]]),
        (@press Example.stdlib Example.encoding_platform (VStr [0x20AC%N])
           (@init Example.encoding_platform tt)).2)
  /\ (type (txt "Hi") Example.controller
      = (Ok tt, (type (txt "Hi") Example.controller).2)
      <-> type (txt "i") (type (txt "H") Example.controller).2
          = (Ok tt, (type (txt "Hi") Example.controller).2)).
Proof.
  split; [|split].
  - apply (proj1 (@type_other_exceptions Example.stdlib Example.base_platform
                    [] 97%N (txt "b") (@init Example.base_platform tt)
                    (@init Example.base_platform tt) eq_refl)
             (Exn NotImplementedError [])).
    reflexivity.
  - apply (proj1 (@type_other_exceptions Example.stdlib Example.encoding_platform
                    [] 0x20AC%N [] (@init Example.encoding_platform tt)
                    (@init Example.encoding_platform tt) eq_refl)
             (Exn Example.UnicodeEncodeError
                  [VKeyCode (from_char (Some [0x20AC%N]))])).
    reflexivity.
  - apply (proj2 (type_other_exceptions (txt "H") 0%N (txt "i") Example.controller
                    (type (txt "H") Example.controller).2 eq_refl)).
Defined.

Lemma join_of_dead_key_witness :
  ((exists joined, join Example.dead_tilde (from_vk 65) = Ok joined /\ is_dead joined = false)
   \/ join Example.dead_tilde (from_vk 65) = Err (Exn ValueError [VKeyCode (from_vk 65)]))
  /\ (is_Ok (join Example.dead_tilde (from_char (Some (txt "a")))) = true
      <-> char (from_char (Some (txt "a"))) <> None).
Proof.
  split.
  - apply (join_of_dead_key (Some 0) (Some (txt "~")) Example.dead_tilde (from_vk 65)).
    reflexivity.
  - apply (join_of_dead_key (Some 0) (Some (txt "~")) Example.dead_tilde
             (from_char (Some (txt "a")))).
    + reflexivity.
    + apply Example_normalize_keeps.
Defined.
End ControllerMethodsOnExample.

(** ** Hot keys: repeated keys, foreign keys, order *)

Section HotKeyMore.
Context `{Countable K} {E : Type}.
Implicit Types (self : HotKey.t K E) (key : K) (env : E)
  (st : HotKey.t K E * E) (ev : HotKey.event K) (evs : list (HotKey.event K)).
Import HotKey.

Lemma hotkey_eq self (state : gset K) :
  state = _state self -> mk state (_keys self) (_on_activate self) = self.
Proof. intros ->. by destruct self. Qed.

Lemma press_no_effect key self env :
  key ∉ _keys self \/ key ∈ _state self -> press key self env = (self, env).
Proof.
  intros Hcase. unfold press.
  destruct (bool_decide_reflect (key ∈ _keys self)) as [Hk|Hk]; [|done].
  destruct (bool_decide_reflect (key ∈ _state self)) as [Hs|Hs]; [done|]. tauto.
Qed.

(** X11. Pressing a key twice is pressing it once, releasing twice is
    releasing once, and a key that is not one of the hot key's keys is
    ignored by [press] and by [release]. *)
Theorem hotkey_repeated_and_foreign key self env :
  press key (press key self env).1 (press key self env).2 = press key self env
  /\ release key (release key self) = release key self
  /\ (key ∉ _keys self -> _state self ⊆ _keys self ->
      press key self env = (self, env) /\ release key self = self).
Proof.
  split; [|split].
  - transitivity ((press key self env).1, (press key self env).2);
      [|by destruct (press key self env)].
    apply press_no_effect.
    rewrite press_keys, press_state.
    destruct (decide (key ∈ _keys self)) as [Hk|Hk]; [|by left].
    right. case_bool_decide; [set_solver|]. 
    destruct (decide (key ∈ _state self)); [done|tauto].
  - apply release_absent. rewrite release_state. set_solver.
  - intros Hk Hsub. split; [apply press_no_effect; by left|].
    apply release_absent. set_solver.
Qed.

(** X12. On a complete hot key, releasing one of its keys and pressing it
    again activates once more and leaves the hot key complete. *)
Theorem hotkey_fires_again key self env :
  _state self = _keys self -> key ∈ _keys self ->
  run [Release key; Press key] (self, env) = (self, _on_activate self env).
Proof.
  intros Hfull Hk. unfold run. simpl. unfold release.
  rewrite bool_decide_eq_true_2 by by rewrite Hfull.
  unfold press. simpl.
  rewrite (bool_decide_eq_true_2 (key ∈ _keys self)) by done.
  rewrite (bool_decide_eq_false_2 (key ∈ _state self ∖ {[key]})) by set_solver.
  simpl.
  assert (Hback : {[key]} ∪ _state self ∖ {[key]} = _state self).
  { apply set_eq. intros x. rewrite elem_of_union, elem_of_difference, elem_of_singleton.
    destruct (decide (x = key)) as [->|]; [rewrite Hfull|]; tauto. }
  rewrite Hback. rewrite bool_decide_eq_true_2 by done.
  by rewrite hotkey_eq.
Qed.

Lemma run_presses (keys pressed : list K) (on_activate : E -> E) env :
  list_to_set pressed ⊆@{gset K} list_to_set keys ->
  run (Press <$> pressed) (init keys on_activate, env) =
    (mk (list_to_set pressed) (list_to_set keys) on_activate,
     if bool_decide (pressed <> [] /\ list_to_set pressed =@{gset K} list_to_set keys)
     then on_activate env else env).
Proof.
  induction pressed as [|key pressed IH] using rev_ind; intros Hsub.
  - rewrite (bool_decide_eq_false_2 ([] <> [] /\ _)) by tauto. done.
  - rewrite fmap_app, run_app, IH by (rewrite list_to_set_app_L in Hsub; set_solver).
    rewrite list_to_set_app_L in *. simpl in *. unfold run. simpl.
    assert (Hkey : key ∈@{gset K} list_to_set keys) by set_solver.
    destruct (decide (key ∈@{gset K} list_to_set pressed)) as [Hin|Hout].
    + rewrite press_no_effect by (by right).
      assert (list_to_set pressed ∪ ({[key]} ∪ ∅) =@{gset K} list_to_set pressed) as ->
        by set_solver.
      f_equal. apply (f_equal (fun b : bool => if b then _ else _)).
      apply bool_decide_ext.
      assert (pressed <> []) by (intros ->; set_solver).
      split; intros [_ ?]; (split; [by destruct pressed | done]).
    + unfold press. simpl.
      rewrite (bool_decide_eq_true_2 (key ∈ list_to_set keys)) by done.
      rewrite (bool_decide_eq_false_2 (key ∈ list_to_set pressed)) by done. simpl.
      assert ({[key]} ∪ list_to_set pressed
              =@{gset K} list_to_set pressed ∪ ({[key]} ∪ ∅)) as -> by set_solver.
      rewrite (bool_decide_eq_false_2
                 (pressed <> [] /\ list_to_set pressed =@{gset K} list_to_set keys))
        by (intros [_ Heq]; rewrite Heq in Hout; done).
      assert (Hne : pressed ++ [key] <> []) by by destruct pressed.
      destruct (decide (list_to_set pressed ∪ ({[key]} ∪ ∅) =@{gset K} list_to_set keys))
        as [Hfull|Hfull].
      * rewrite (bool_decide_eq_true_2 (_ /\ _)) by done.
        by rewrite (bool_decide_eq_true_2 _ Hfull).
      * rewrite (bool_decide_eq_false_2 (_ /\ _)) by tauto.
        by rewrite (bool_decide_eq_false_2 _ Hfull).
Qed.

(** X13. From a fresh hot key, pressing its keys in any order, and any of
    them more than once, activates it exactly once, and leaves it
    complete. *)
Theorem hotkey_fires_once (keys pressed : list K) (on_activate : E -> E) env :
  pressed <> [] -> list_to_set pressed =@{gset K} list_to_set keys ->
  run (Press <$> pressed) (init keys on_activate, env) =
    (mk (list_to_set keys) (list_to_set keys) on_activate, on_activate env).
Proof.
  intros Hne Heq. rewrite run_presses by (by rewrite Heq).
  rewrite bool_decide_eq_true_2 by done. by rewrite Heq.
Qed.

Lemma run_keys evs st : _keys (run evs st).1 = _keys st.1.
Proof.
  induction evs as [|ev evs IH] using rev_ind; [done|].
  by rewrite run_snoc, step_keys.
Qed.

(** X14. A hot key never activates while one of its keys has not been
    pressed at all; and a hot key without keys never changes. *)
Theorem hotkey_missing_key (keys : list K) (on_activate : E -> E) evs env :
  (forall key, key ∈ keys -> Press key ∉ evs ->
               (run evs (init keys on_activate, env)).2 = env
               /\ key ∉ _state (run evs (init keys on_activate, env)).1)
  /\ run evs (init [] on_activate, env) = (init [] on_activate, env).
Proof.
  split.
  - intros key Hkey. induction evs as [|ev evs IH] using rev_ind; intros Hnever.
    + split; [done | set_solver].
    + rewrite run_snoc.
      destruct IH as [IHenv IHstate]; [set_solver|].
      pose proof (run_keys evs (init keys on_activate, env)) as Hkeys. simpl in Hkeys.
      destruct ev as [key'|key']; simpl.
      * assert (key' <> key) by (intros ->; set_solver).
        rewrite press_callback, press_state. split.
        -- destruct (activates key' _) eqn:Hact; [|done].
           apply activates_spec in Hact as (_ & _ & Hfull).
           rewrite Hkeys in Hfull.
           assert (key ∈@{gset K} list_to_set keys) as Hin by set_solver.
           rewrite <- Hfull in Hin. set_solver.
        -- case_bool_decide; set_solver.
      * rewrite release_state. split; [done | set_solver].
  - induction evs as [|ev evs IH] using rev_ind; [done|].
    rewrite run_snoc, IH. destruct ev as [key|key]; simpl.
    + apply press_no_effect. left. set_solver.
    + by rewrite release_absent by set_solver.
Qed.
End HotKeyMore.


Lemma hotkey_repeated_and_foreign_witness :
  let x : HotKey.part := inr (from_char (Some (txt "x"))) in
  HotKey.press x Example.ctrl_shift_t 0%nat = (Example.ctrl_shift_t, 0%nat)
  /\ HotKey.release x Example.ctrl_shift_t = Example.ctrl_shift_t.
Proof.
  intros x.
  apply (proj2 (proj2 (hotkey_repeated_and_foreign x Example.ctrl_shift_t 0%nat))).
  - apply (bool_decide_unpack _). vm_compute. exact I.
  - apply (bool_decide_unpack _). vm_compute. exact I.
Defined.


Lemma hotkey_fires_again_witness :
  let complete : HotKey.t HotKey.part nat :=
    HotKey.mk (list_to_set [inl ctrl; inl shift]) (list_to_set [inl ctrl; inl shift]) S in
  HotKey.run [HotKey.Release (inl shift); HotKey.Press (inl shift)] (complete, 1%nat)
  = (complete, 2%nat).
Proof.
  intros complete. apply (hotkey_fires_again (inl shift) complete 1%nat).
  - reflexivity.
  - apply (bool_decide_unpack _). vm_compute. exact I.
Defined.

Lemma hotkey_fires_once_witness :
  let t : HotKey.part := inr (from_char (Some (txt "t"))) in
  let keys := [inl ctrl; inl shift; t] : list HotKey.part in
  HotKey.run (HotKey.Press <$> [t; inl shift; t; inl ctrl; inl shift])
    (HotKey.init keys S, 0%nat)
  = (HotKey.mk (list_to_set keys) (list_to_set keys) S, 1%nat).
Proof.
  intros t keys. apply hotkey_fires_once.
  - discriminate.
  - apply (bool_decide_unpack _). vm_compute. exact I.
Defined.


Lemma hotkey_missing_key_witness :
  let t : HotKey.part := inr (from_char (Some (txt "t"))) in
  let keys := [inl ctrl; inl shift; t] : list HotKey.part in
  let evs := [HotKey.Press (inl ctrl); HotKey.Press (inl shift);
              HotKey.Release (inl ctrl); HotKey.Press (inl ctrl)] in
  (HotKey.run evs (HotKey.init keys S, 0%nat)).2 = 0%nat
  /\ t ∉ HotKey._state (HotKey.run evs (HotKey.init keys S, 0%nat)).1.
Proof.
  intros t keys evs.
  apply (proj1 (hotkey_missing_key keys S evs 0%nat) t).
  - set_solver.
  - intros Hin.
    repeat (apply elem_of_cons in Hin as [Heq|Hin]; [discriminate Heq|]).
    by apply elem_of_nil in Hin.
Defined.

(** ** Hot keys: what [parse] returns *)

Section ParseMore.
Context `{StdLib} `{Backend}.
Import HotKey.

Lemma join_plus_cons (seg : text) (rest : list text) :
  rest <> [] -> join_plus (seg :: rest) = seg ++ plus_sign :: join_plus rest.
Proof. by destruct rest. Qed.

Lemma join_plus_cut (current rest : text) : join_plus (cut current rest) = current ++ rest.
Proof.
  revert current. induction rest as [|c rest IH]; intros current; cbn [cut].
  - simpl. by rewrite app_nil_r.
  - destruct (bool_decide_reflect (c = plus_sign)) as [->|Hc]; cbn [andb negb].
    + destruct (bool_decide_reflect (current = [])) as [->|Hcur]; cbn [andb negb].
      * by rewrite IH.
      * rewrite join_plus_cons by apply cut_nonempty. by rewrite IH.
    + rewrite IH. by rewrite <- app_assoc.
Qed.

Lemma cut_shape (current rest : text) :
  exists yielded final,
    cut current rest = yielded ++ [final] /\ Forall (fun seg => seg <> []) yielded.
Proof.
  revert current. induction rest as [|c rest IH]; intros current; simpl.
  - by exists [], current.
  - destruct (bool_decide_reflect (c = plus_sign)) as [->|Hc]; simpl.
    + destruct (bool_decide_reflect (current = [])) as [->|Hcur]; simpl; [apply IH|].
      destruct (IH []) as (yielded & final & -> & Hall).
      exists (current :: yielded), final. split; [done|]. by constructor.
    + apply IH.
Qed.

(** X15. The segments [parts] yields, joined by ['+'], are the string
    again; none of them is empty, and there is at least one. *)
Theorem parts_round_trip (keys : text) (raw : list text) :
  parts keys = Ok raw ->
  join_plus raw = keys /\ Forall (fun seg => seg <> []) raw /\ raw <> [].
Proof.
  rewrite parts_segments. case_bool_decide as Hlast; [done|]. intros [= <-].
  rewrite segments_cut in *. split; [apply join_plus_cut|].
  split; [|apply cut_nonempty].
  destruct (cut_shape [] keys) as (yielded & final & Hcut & Hall).
  rewrite Hcut in *. rewrite last_snoc in Hlast.
  apply Forall_app. split; [done|]. constructor; [congruence | constructor].
Qed.

Lemma mapM_Ok {A B} (f : A -> result B) (l : list A) (l' : list B) :
  mapM f l = Ok l' -> Forall2 (fun x y => f x = Ok y) l l'.
Proof.
  revert l'. induction l as [|x l IH]; intros l'; simpl.
  - intros [= <-]. constructor.
  - destruct (f x) as [y|e] eqn:Hx; [|done]. simpl.
    destruct (mapM f l) as [k|e]; [|done]. simpl. intros [= <-].
    constructor; [done | by apply IH].
Qed.

(** The values of [_NORMAL_MODIFIERS] are base modifiers, each under a
    value of its own entry. *)
Lemma normal_modifiers_entry (combinations : list (Key * list (option KeyCode)))
    (value : option KeyCode) (base : Key) :
  foldl (fun d combination =>
           foldl (fun d value => <[value := combination.1]> d) d combination.2)
        (∅ : gmap (option KeyCode) Key) combinations !! value = Some base ->
  exists combination,
    combination ∈ combinations /\ combination.1 = base /\ value ∈ combination.2.
Proof.
  induction combinations as [|c combinations IH] using rev_ind; [done|].
  rewrite foldl_app. simpl. intros Hlookup.
  destruct (decide (value ∈ c.2)) as [Hin|Hout].
  - rewrite add_combination_in in Hlookup by done. injection Hlookup as <-.
    exists c. split; [set_solver | done].
  - rewrite add_combination_out in Hlookup by done.
    destruct (IH Hlookup) as (c' & Hc' & Hbase & Hin). exists c'. set_solver.
Qed.

Lemma normal_modifiers_some (combinations : list (Key * list (option KeyCode)))
    (value : option KeyCode) :
  (exists combination, combination ∈ combinations /\ value ∈ combination.2) ->
  is_Some (foldl (fun d combination =>
                    foldl (fun d value => <[value := combination.1]> d) d combination.2)
                 (∅ : gmap (option KeyCode) Key) combinations !! value).
Proof.
  induction combinations as [|c combinations IH] using rev_ind.
  - intros (c & Hc & _). by apply elem_of_nil in Hc.
  - intros (c' & Hc' & Hin). rewrite foldl_app. simpl.
    destruct (decide (value ∈ c.2)) as [Hc|Hc].
    + by rewrite add_combination_in.
    + rewrite add_combination_out by done. apply IH. exists c'. split; [|done].
      apply elem_of_app in Hc' as [?|Hlast]; [done|].
      apply list_elem_of_singleton in Hlast. by subst.
Qed.

Lemma dict_values_base (key : Key) :
  key ∈ dict_values _NORMAL_MODIFIERS -> key ∈ base_modifiers.
Proof.
  unfold dict_values. intros ([value base] & -> & Hentry)%list_elem_of_fmap.
  apply elem_of_map_to_list in Hentry. unfold _NORMAL_MODIFIERS in Hentry.
  apply normal_modifiers_entry in Hentry as (c & Hc & <- & _).
  unfold _MODIFIER_KEYS, base_modifiers in *.
  repeat (apply elem_of_cons in Hc as [->|Hc]; [simpl; set_solver|]).
  by apply elem_of_nil in Hc.
Qed.

Lemma parse_part_shape (s : text) (p : part) :
  parse_part s = Ok p ->
  match p with
  | inl key => key ∈ base_modifiers
  | inr code => is_dead code = false /\ value_of code = None
  end.
Proof.
  unfold parse_part. case_bool_decide; [by intros [= <-]|].
  destruct (_ && _); [|done].
  destruct (Key_getitem _) as [key|].
  - case_bool_decide as Hmod; [intros [= <-]; by apply dict_values_base|].
    destruct (Key_value key) as [value|]; [|done].
    destruct (vk value); [by intros [= <-] | done].
  - destruct (int_of_str _); [by intros [= <-] | done].
Qed.

(** X16. What [parse] returns has at least one part, one for each
    segment, and names no key twice; a part is a base modifier, or a key
    code that is not dead and is a new object, the value of no named
    key. *)
Theorem parse_result (keys : text) (parsed : list part) :
  parse keys = Ok parsed ->
  NoDup (named_parts parsed) /\ parsed <> []
  /\ length parsed = length (segments keys)
  /\ Forall (fun p => match p with
                      | inl key => key ∈ base_modifiers
                      | inr code => is_dead code = false /\ value_of code = None
                      end) parsed.
Proof.
  unfold parse. rewrite parts_segments. case_bool_decide; [done|]. simpl.
  destruct (mapM parse_part (segments keys)) as [parts'|e] eqn:Hmap; [|done]. simpl.
  case_bool_decide as Hsize; [done|]. intros [= <-].
  assert (Hnodup : NoDup (named_parts parts')) by by apply parse_check.
  apply mapM_Ok in Hmap.
  assert (Hlen : length parts' = length (segments keys))
    by (symmetry; by eapply Forall2_length).
  split; [done|]. split; [|split; [done|]].
  - intros ->. rewrite segments_cut in Hlen. simpl in Hlen.
    pose proof (cut_nonempty [] keys). by destruct (cut [] keys).
  - clear -Hmap. induction Hmap as [|s p l l' Hp _ IH]; constructor; [|done].
    by apply (parse_part_shape s).
Qed.

Lemma mapM_Err {A B} (f : A -> result B) (l : list A) (e : exn) :
  mapM f l = Err e -> exists x, x ∈ l /\ f x = Err e.
Proof.
  induction l as [|x l IH]; simpl; [done|].
  destruct (f x) as [y|e'] eqn:Hx; simpl.
  - destruct (mapM f l) as [k|e']; [done|]. simpl. intros [= ->].
    destruct (IH eq_refl) as (x' & Hin & Hx'). exists x'. split; [by right | done].
  - intros [= ->]. exists x. split; [by left | done].
Qed.

Lemma parse_part_error (s : text) (e : exn) :
  keys_have_codes -> parse_part s = Err e -> e = Exn ValueError [VStr s].
Proof.
  intros Hcodes. unfold parse_part.
  case_bool_decide; [done|].
  destruct (_ && _); [|by intros [= <-]].
  destruct (Key_getitem _) as [key|].
  - case_bool_decide; [done|].
    destruct (Hcodes key) as (value & code & -> & ->). done.
  - destruct (int_of_str _); [done | by intros [= <-]].
Qed.

Lemma parse_error (keys : text) (e : exn) :
  keys_have_codes -> parse keys = Err e ->
  exists s, e = Exn ValueError [VStr s] /\ (s = keys \/ s ∈ segments keys).
Proof.
  intros Hcodes. unfold parse. rewrite parts_segments.
  case_bool_decide; [intros [= <-]; exists keys; by split; [|left]|]. simpl.
  destruct (mapM parse_part (segments keys)) as [parsed|e'] eqn:Hmap; simpl.
  - case_bool_decide; [intros [= <-]; exists keys; by split; [|left] | done].
  - intros [= ->]. apply mapM_Err in Hmap as (s & Hin & Hs).
    exists s. split; [by apply parse_part_error | by right].
Qed.

(** X17. On a platform whose named keys all have codes, [parse] raises
    nothing but [ValueError], on the whole description or on one of its
    segments. *)
Theorem parse_raises_ValueError (keys : text) (e : exn) :
  keys_have_codes -> parse keys = Err e ->
  exn_cls e = ValueError
  /\ exists s, exn_args e = [VStr s] /\ (s = keys \/ s ∈ segments keys).
Proof.
  intros Hcodes Hparse.
  destruct (parse_error keys e Hcodes Hparse) as (s & -> & Hs).
  split; [done|]. by exists s.
Qed.

(** X18. [_NORMAL_MODIFIERS] has an entry for exactly the values
    [_as_modifier] knows, and where no value stands for two base
    modifiers the two agree on every value. *)
Theorem normal_modifiers_as_modifier (value : option KeyCode) :
  (is_Some (_NORMAL_MODIFIERS !! value) <-> is_Some (Controller._as_modifier value))
  /\ (modifiers_apart -> _NORMAL_MODIFIERS !! value = Controller._as_modifier value).
Proof.
  assert (Hdom : is_Some (_NORMAL_MODIFIERS !! value)
                 <-> exists c, c ∈ _MODIFIER_KEYS /\ value ∈ c.2).
  { split.
    - intros [base Hbase]. apply normal_modifiers_entry in Hbase as (c & Hc & _ & Hin).
      by exists c.
    - apply normal_modifiers_some. }
  assert (Hnone : Controller._as_modifier value = None
                  <-> forall c, c ∈ _MODIFIER_KEYS -> value ∉ c.2).
  { unfold Controller._as_modifier. rewrite fmap_None, find_none. split.
    - intros Hall c Hc. specialize (Hall c Hc). by apply bool_decide_eq_false in Hall.
    - intros Hall c Hc. apply bool_decide_eq_false. by apply Hall. }
  split.
  - rewrite Hdom. split.
    + intros (c & Hc & Hin). destruct (Controller._as_modifier value) eqn:Hmod; [done|].
      exfalso. by apply (proj1 Hnone eq_refl c).
    + intros [base Hmod]. unfold Controller._as_modifier in Hmod.
      apply fmap_Some in Hmod as (c & Hfind & _).
      apply find_first in Hfind as (i & Hi & Hin & _).
      apply bool_decide_eq_true in Hin. exists c. split; [|done].
      by eapply list_elem_of_lookup_2.
  - intros Hapart. destruct (Controller._as_modifier value) as [base|] eqn:Hmod.
    + unfold Controller._as_modifier in Hmod.
      apply fmap_Some in Hmod as ([b values] & Hfind & ->). simpl.
      apply find_first in Hfind as (i & Hi & Hin & _).
      apply bool_decide_eq_true in Hin. simpl in Hin.
      apply (normal_modifiers_lookup _MODIFIER_KEYS i (b, values)); [done|done|].
      intros j c Hij Hj. apply (Hapart i j (b, values) c); [done|done|lia|done].
    + apply eq_None_not_Some. rewrite Hdom. intros (c & Hc & Hin).
      by apply (proj1 Hnone eq_refl c).
Qed.
End ParseMore.

Section ParseMoreOnExample.
#[local] Existing Instance Example.stdlib.
#[local] Existing Instance Example.platform.
Import HotKey.

Lemma Example_modifiers_apart : modifiers_apart.
Proof.
  intros i j c c' Hi Hj Hne value Hin.
  destruct i as [|[|[|[|[|i]]]]]; try done;
    destruct j as [|[|[|[|[|j]]]]]; try done;
    injection Hi as <-; injection Hj as <-; simpl in *;
    repeat (apply elem_of_cons in Hin as [->|Hin]);
    try (by apply elem_of_nil in Hin);
    apply (bool_decide_unpack _); vm_compute; exact I.
Qed.

Lemma parts_round_trip_witness :
  join_plus [txt "a"; txt "+"] = txt "a++"
  /\ Forall (fun seg => seg <> []) [txt "a"; txt "+"]
  /\ [txt "a"; txt "+"] <> [].
Proof. apply (parts_round_trip (txt "a++")). reflexivity. Defined.

Lemma parse_result_witness :
  let parsed := [inl ctrl; inl alt; inr (from_char (Some (txt "t")))] in
  NoDup (named_parts parsed) /\ parsed <> []
  /\ length parsed = length (segments (txt "<ctrl>+<alt>+t"))
  /\ Forall (fun p => match p with
                      | inl key => key ∈ base_modifiers
                      | inr code => is_dead code = false /\ value_of code = None
                      end) parsed.
Proof.
  intros parsed. apply (parse_result (txt "<ctrl>+<alt>+t")).
  vm_compute. reflexivity.
Defined.

Lemma parse_raises_ValueError_witness :
  exn_cls (Exn ValueError [VStr (txt "ctrl")]) = ValueError
  /\ exists s, exn_args (Exn ValueError [VStr (txt "ctrl")]) = [VStr s]
               /\ (s = txt "ctrl+a" \/ s ∈ segments (txt "ctrl+a")).
Proof.
  apply (parse_raises_ValueError (txt "ctrl+a")); [apply Example_keys_have_codes|].
  vm_compute. reflexivity.
Defined.

Lemma normal_modifiers_as_modifier_witness :
  (is_Some (_NORMAL_MODIFIERS !! Key_value shift_r)
   <-> is_Some (Controller._as_modifier (Key_value shift_r)))
  /\ _NORMAL_MODIFIERS !! Key_value shift_r
     = Controller._as_modifier (Key_value shift_r).
Proof.
  split.
  - apply (normal_modifiers_as_modifier (Key_value shift_r)).
  - apply (normal_modifiers_as_modifier (Key_value shift_r)).
    apply Example_modifiers_apart.
Defined.
End ParseMoreOnExample.

(** ** The listener of several hot keys *)

Section GlobalHotKeysProps.
Context `{StdLib} `{Backend} {E : Type}.
Variable canonical : HotKey.part -> HotKey.part.
Implicit Types (hks : list (HotKey.t HotKey.part E)) (env : E)
  (key : HotKey.part) (evs : list (HotKey.event HotKey.part)).
Import HotKey.









Lemma init_Ok (hotkeys : list (text * (E -> E))) hks :
  GlobalHotKeys.init hotkeys = Ok hks ->
  Forall2 (fun item hk => exists parsed,
               parse item.1 = Ok parsed /\ hk = HotKey.init parsed item.2)
          hotkeys hks.
Proof.
  intros Hinit. apply mapM_Ok in Hinit.
  eapply Forall2_impl; [exact Hinit|]. intros item hk. simpl.
  destruct (parse item.1) as [parsed|e]; [|done]. simpl. intros [= <-]. by exists parsed.
Qed.


(** X19. The listener is made exactly when every description parses: it
    then has one hot key for each description, in their order, with
    nothing pressed; otherwise making it raises what the first description
    that does not parse raises, which is a [ValueError] where the named
    keys all have codes. *)
Theorem global_hotkeys_init (hotkeys : list (text * (E -> E))) :
  (forall hks, GlobalHotKeys.init hotkeys = Ok hks ->
     Forall2 (fun item hk => exists parsed,
                  parse item.1 = Ok parsed /\ hk = mk ∅ (list_to_set parsed) item.2)
             hotkeys hks)
  /\ (forall e, GlobalHotKeys.init hotkeys = Err e ->
        (exists good item bad,
            hotkeys = good ++ item :: bad /\ parse item.1 = Err e
            /\ Forall (fun item' => exists parsed, parse item'.1 = Ok parsed) good)
        /\ (keys_have_codes -> exn_cls e = ValueError))
  /\ (Forall (fun item => exists parsed, parse item.1 = Ok parsed) hotkeys ->
      exists hks, GlobalHotKeys.init hotkeys = Ok hks).
Proof.
  split; [|split].
  - intros hks Hinit. by apply init_Ok.
  - intros e Hinit.
    assert (Hfirst : exists good item bad,
               hotkeys = good ++ item :: bad /\ parse item.1 = Err e
               /\ Forall (fun item' => exists parsed, parse item'.1 = Ok parsed) good).
    { revert Hinit. unfold GlobalHotKeys.init.
      induction hotkeys as [|item hotkeys IH]; simpl; [done|].
      destruct (parse item.1) as [parsed|e'] eqn:Hitem; simpl.
      - destruct (mapM _ hotkeys) as [hks|e'] eqn:Hrest; simpl; [done|].
        intros [= ->]. destruct (IH eq_refl) as (good & item' & bad & -> & Hbad & Hgood).
        exists (item :: good), item', bad. split; [done|]. split; [done|].
        constructor; [by exists parsed | done].
      - intros [= ->]. exists [], item, hotkeys. by repeat split. }
    split; [done|]. intros Hcodes.
    destruct Hfirst as (_ & item & _ & _ & Hitem & _).
    by destruct (parse_error item.1 e Hcodes Hitem) as (s & -> & _).
  - unfold GlobalHotKeys.init. induction 1 as [|item hotkeys [parsed Hitem] _ [hks IH]];
      simpl; [by eexists|].
    rewrite Hitem. simpl. rewrite IH. simpl. by eexists.
Qed.


End GlobalHotKeysProps.

Section GlobalHotKeysOnExample.
#[local] Existing Instance Example.stdlib.
#[local] Existing Instance Example.platform.
Import HotKey.

Lemma global_hotkeys_init_witness :
  (exists hks : list (HotKey.t part nat),
      GlobalHotKeys.init [(txt "<ctrl>+<shift>+t", S); (txt "a", S)] = Ok hks)
  /\ exn_cls (Exn ValueError [VStr (txt "ctrl")]) = ValueError.
Proof.
  assert (Hfirst : parse (txt "<ctrl>+<shift>+t")
                   = Ok [inl ctrl; inl shift; inr (from_char (Some (txt "t")))])
    by (vm_compute; reflexivity).
  assert (Hsecond : parse (txt "a") = Ok [inr (from_char (Some (txt "a")))])
    by (vm_compute; reflexivity).
  assert (Hthird : parse (txt "ctrl+b") = Err (Exn ValueError [VStr (txt "ctrl")]))
    by (vm_compute; reflexivity).
  assert (Hbad : GlobalHotKeys.init (E := nat) [(txt "a", S); (txt "ctrl+b", S)]
                 = Err (Exn ValueError [VStr (txt "ctrl")])).
  { unfold GlobalHotKeys.init. cbn [mapM fst]. rewrite Hsecond, Hthird. reflexivity. }
  split.
  - refine (proj2 (proj2 (global_hotkeys_init
                            [(txt "<ctrl>+<shift>+t", S); (txt "a", S)])) _).
    constructor; [eexists; exact Hfirst|].
    constructor; [eexists; exact Hsecond|]. constructor.
  - exact (proj2 (proj1 (proj2 (global_hotkeys_init [(txt "a", S); (txt "ctrl+b", S)]))
                        _ Hbad) Example_keys_have_codes).
Defined.

End GlobalHotKeysOnExample.

(** ** Mouse: buttons, events and scrolling *)

Section MouseProps.
Import Mouse.

Lemma button_in_range (d : Z) : 1 <= d <= 30 -> Button_value (_button d) = Some d.
Proof.
  intros Hd.
  assert (Hall : Forall (fun d => Button_value (_button d) = Some d) (seqZ 1 30))
    by (apply (bool_decide_unpack _); vm_compute; exact I).
  rewrite Forall_forall in Hall. apply Hall. apply elem_of_seqZ. lia.
Qed.

Lemma button_out_of_range (d : Z) : ~ 1 <= d <= 30 -> _button d = unknown.
Proof.
  intros Hd. unfold _button, Button_call. cbn [find Button_members Button_value].
  rewrite (bool_decide_eq_false_2 (None = Some d)) by done.
  repeat (rewrite bool_decide_eq_false_2 by (intros [= <-]; lia)). done.
Qed.

Lemma button_value_unknown (b : Button) : Button_value b = None -> b = unknown.
Proof. by destruct b. Qed.

Lemma scroll_buttons_lookup (d : Z) :
  _SCROLL_BUTTONS !! Some d =
    if bool_decide (d = 6) then Some (-1, 0)
    else if bool_decide (d = 7) then Some (1, 0)
    else if bool_decide (d = 5) then Some (0, -1)
    else if bool_decide (d = 4) then Some (0, 1)
    else None.
Proof.
  unfold _SCROLL_BUTTONS. cbn [Button_value].
  rewrite !lookup_insert, lookup_empty.
  repeat case_decide; repeat case_bool_decide; congruence.
Qed.

Lemma scroll_buttons_unknown : _SCROLL_BUTTONS !! None = None.
Proof. done. Qed.

(** X22. [_button] gives the button whose value the detail is: every
    button but [unknown] is found again from its value, a detail from 1 to
    30 gives the button of that value, and any other detail gives
    [unknown]. *)
Theorem button_of_detail :
  (forall b, match Button_value b with
             | Some d => _button d = b
             | None => b = unknown
             end)
  /\ (forall d, if bool_decide (1 <= d <= 30)
                then Button_value (_button d) = Some d
                else _button d = unknown).
Proof.
  split.
  - intros b. by destruct b.
  - intros d. case_bool_decide; [by apply button_in_range | by apply button_out_of_range].
Qed.

(** X23. Of a press and the release of one button the listener reports
    either one scroll step, of one unit along one axis and in the
    direction of that scroll button, and nothing on the release; or two
    clicks of the same button, pressed and then not, and that button is
    never a scroll button. Any other event is reported as a move. *)
Theorem handle_press_and_release (d x y : Z) :
  _handle (mkEvent OtherEvent d x y) = Some (on_move x y)
  /\ if bool_decide (4 <= d <= 7)
     then (exists dx dy,
              _handle (mkEvent ButtonPress d x y) = Some (on_scroll x y dx dy)
              /\ Z.abs dx + Z.abs dy = 1
              /\ _SCROLL_BUTTONS !! Button_value (_button d) = Some (dx, dy))
          /\ _handle (mkEvent ButtonRelease d x y) = None
     else _handle (mkEvent ButtonPress d x y) = Some (on_click x y (_button d) true)
          /\ _handle (mkEvent ButtonRelease d x y)
             = Some (on_click x y (_button d) false)
          /\ _button d ∉ [scroll_up; scroll_down; scroll_left; scroll_right].
Proof.
  split; [done|]. unfold _handle. cbn [type detail root_x root_y].
  destruct (bool_decide_reflect (4 <= d <= 7)) as [Hd|Hd].
  - rewrite button_in_range by lia.
    assert (Hcases : d = 4 \/ d = 5 \/ d = 6 \/ d = 7) by lia.
    destruct Hcases as [-> | [-> | [-> | ->]]]; rewrite scroll_buttons_lookup; simpl;
      (split; [by eexists _, _ | done]).
  - assert (Hnone : _SCROLL_BUTTONS !! Some d = None).
    { rewrite scroll_buttons_lookup. repeat (case_bool_decide; [lia|]). done. }
    rewrite Hnone. rewrite bool_decide_eq_false_2 by (by intros [? ?]).
    split; [done|]. split; [done|].
    destruct (decide (1 <= d <= 30)) as [Hin|Hout].
    + pose proof (button_in_range d Hin) as Hvalue.
      intros Hscroll. repeat (apply elem_of_cons in Hscroll as [Heq|Hscroll]);
        [..|by apply elem_of_nil in Hscroll];
        rewrite Heq in Hvalue; simpl in Hvalue; injection Hvalue; lia.
    + rewrite button_out_of_range by done.
      intros Hscroll. repeat (apply elem_of_cons in Hscroll as [Heq|Hscroll]);
        [..|by apply elem_of_nil in Hscroll]; discriminate Heq.
Qed.

Lemma scrolled_nil : scrolled [] = (0, 0).
Proof. done. Qed.

(** X24. Within the range of a short integer, [_scroll] clicks scroll
    buttons only, the vertical one first, each a positive number of
    times, none for an amount of zero; and a listener that counts each
    click as the scroll step of its button reads exactly the amounts
    given. Out of that range it raises [ValueError] and clicks nothing. *)
Theorem scroll_clicks (dx dy : Z) :
  (-32768 <= dx <= 32767 -> -32768 <= dy <= 32767 ->
   exists clicks,
     _scroll dx dy = Ok clicks
     /\ scrolled clicks = (dx, dy)
     /\ Forall (fun click =>
                  0 < click.2
                  /\ exists d dir,
                       Button_value click.1 = Some d
                       /\ forall x y,
                            _handle (mkEvent ButtonPress d x y)
                            = Some (on_scroll x y dir.1 dir.2)
                            /\ _handle (mkEvent ButtonRelease d x y) = None) clicks
     /\ (clicks = [] <-> dx = 0 /\ dy = 0)
     /\ (forall i b n, clicks !! i = Some (b, n) ->
                       b = scroll_up \/ b = scroll_down -> i = 0%nat /\ n = Z.abs dy))
  /\ (~ (-32768 <= dx <= 32767 /\ -32768 <= dy <= 32767) ->
      _scroll dx dy = Err (Exn ValueError [VTuple [dx; dy]])).
Proof.
  split.
  - intros Hdx Hdy. unfold _scroll.
    rewrite check_bounds_inside by (repeat constructor; lia). simpl.
    eexists. split; [done|].
    assert (Hhandle : forall b, b ∈ [scroll_up; scroll_down; scroll_left; scroll_right] ->
              exists d dir, Button_value b = Some d
                /\ forall x y, _handle (mkEvent ButtonPress d x y)
                               = Some (on_scroll x y dir.1 dir.2)
                               /\ _handle (mkEvent ButtonRelease d x y) = None).
    { intros b Hb. repeat (apply elem_of_cons in Hb as [-> | Hb]);
        [..|by apply elem_of_nil in Hb]; eexists _, (_, _); (split; [done|]);
        intros x y; split; reflexivity. }
    destruct (bool_decide_reflect (dy ≠ 0)) as [Hy|Hy];
      destruct (bool_decide_reflect (dx ≠ 0)) as [Hx|Hx];
      destruct (bool_decide_reflect (dy > 0)) as [Hy'|Hy'];
      destruct (bool_decide_reflect (dx > 0)) as [Hx'|Hx']; try lia; cbn [app];
      (split; [unfold scrolled; simpl; rewrite ?scroll_buttons_lookup; simpl; f_equal; lia|]);
      (split; [repeat first [apply Forall_nil_2 | apply Forall_cons_2];
               (split; [simpl; lia | apply Hhandle; simpl; set_solver])|]);
      (split; [split; [intros Heq; first [discriminate Heq | lia]
                      | intros [? ?]; first [reflexivity | lia]]|]);
      intros [|[|i]] b n Hi Hb; try discriminate Hi;
      injection Hi as <- <-; first [done | destruct Hb; discriminate].
  - intros Hout. unfold _scroll.
    rewrite check_bounds_outside; [done|].
    destruct (decide (-32768 <= dx <= 32767)) as [Hdx|Hdx].
    + right. left. lia.
    + left. lia.
Qed.

(** X25. [_position_set] moves the pointer exactly when it is given two
    coordinates within the range of a short integer, and then to those;
    it raises [ValueError] otherwise. *)
Theorem position_set_result (pos : list Z) :
  (forall px py,
      _position_set pos = Ok (px, py)
      <-> pos = [px; py] /\ -32768 <= px <= 32767 /\ -32768 <= py <= 32767)
  /\ (forall e, _position_set pos = Err e -> exn_cls e = ValueError).
Proof.
  unfold _position_set.
  destruct (decide (Forall (fun number => -32768 <= number <= 32767) pos)) as [Hin|Hout].
  - rewrite check_bounds_inside by done. simpl. split.
    + intros px py. split.
      * destruct pos as [|x [|y [|z pos]]]; try done. intros [= <- <-].
        inversion Hin as [|? ? Hx Hin']. inversion Hin' as [|? ? Hy _]. done.
      * by intros (-> & _ & _).
    + intros e. destruct pos as [|x [|y [|z pos]]]; try done; by intros [= <-].
  - apply not_Forall_Exists in Hout; [|apply _].
    rewrite check_bounds_outside.
    + simpl. split; [|by intros e [= <-]].
      intros px py. split; [done|]. intros (-> & Hx & Hy).
      apply Exists_cons in Hout as [Hout|Hout]; [simpl in Hout; lia|].
      apply Exists_cons in Hout as [Hout|Hout]; [simpl in Hout; lia|].
      by apply Exists_nil in Hout.
    + eapply Exists_impl; [exact Hout|]. simpl. intros number. lia.
Qed.
End MouseProps.

Lemma scroll_clicks_witness :
  (exists clicks, Mouse._scroll 2 (-3) = Ok clicks /\ Mouse.scrolled clicks = (2, -3))
  /\ Mouse._scroll 40000 0 = Err (Exn ValueError [VTuple [40000; 0]]).
Proof.
  split.
  - destruct (proj1 (scroll_clicks 2 (-3)) ltac:(lia) ltac:(lia))
      as (clicks & Hclicks & Hscrolled & _).
    exists clicks. split; [exact Hclicks | exact Hscrolled].
  - apply (proj2 (scroll_clicks 40000 0)). lia.
Defined.

Lemma position_set_result_witness :
  Mouse._position_set [10; 20] = Ok (10, 20)
  /\ exn_cls (Exn ValueError [VStr (txt "values to unpack")]) = ValueError.
Proof.
  split.
  - apply (proj2 (proj1 (position_set_result [10; 20]) 10 20)).
    split; [reflexivity | lia].
  - apply (proj2 (position_set_result [10])). reflexivity.
Defined.
